(** * rrng: a reversible linear congruential generator

    Shallow embedding of [rrng.py].  Python's unbounded integers are [Z];
    [&] is [Z.land], [>>] is [Z.shiftr], [//] and [%] are [Z.div] and
    [Z.modulo] (both floor, as in Python).  The module-level dictionary
    [a_inverse_stored] is a [gmap] keyed by the pair [(a, b)].  Methods are
    written in a small state-and-exception monad over the object. *)

From Stdlib Require Import ZArith Lia Bool List.
From stdpp Require Import base gmap.

Local Open Scope Z_scope.

(** ** Outcomes of a call *)

Inductive exn : Type :=
  | AssertionError
  | IndexError
  | OverflowError
  | ValueError.

(** [Diverges]: the call never returns. *)
Inductive res (A : Type) : Type :=
  | Ok (v : A)
  | Raise (e : exn)
  | Diverges.

Arguments Ok {A} v.
Arguments Raise {A} e.
Arguments Diverges {A}.

(** ** Module-level functions *)

Definition is_power_of_two (x : Z) : bool :=
  Z.land x (x - 1) =? 0.

(** The [while b:] loop of [xgcd_x]; [None] when the fuel runs out. *)
Fixpoint xgcd_x_loop (fuel : nat) (x_prev x a b : Z) : option Z :=
  match fuel with
  | O => None
  | S fuel' =>
      if b =? 0 then Some x_prev
      else
        let q := a / b in
        xgcd_x_loop fuel' x (x_prev - q * x) b (a mod b)
  end.

(** Two iterations at least halve [|b|], so this many always suffice
    (see [xgcd_x_loop_terminates]). *)
Definition xgcd_x_fuel (b : Z) : nat :=
  S (2 * S (Z.to_nat (Z.log2 (Z.abs b)))).

Definition xgcd_x (a b : Z) : option Z :=
  xgcd_x_loop (xgcd_x_fuel b) 1 0 a b.

(** [a_inverse_stored], and [get_a_inverse_value] threading it. *)
Definition get_a_inverse_value (a b : Z) (a_inverse_stored : gmap (Z * Z) Z)
  : gmap (Z * Z) Z * res Z :=
  match a_inverse_stored !! (a, b) with
  | Some x => (a_inverse_stored, Ok x)
  | None =>
      match xgcd_x a b with
      | Some x => (<[(a, b) := x]> a_inverse_stored, Ok x)
      | None => (a_inverse_stored, Diverges)
      end
  end.

(** ** The generator object *)

Record ReversibleLCG : Type := mkLCG {
  _x : Z;
  _m : Z;
  _a : Z;
  _c : Z;
  _d : Z;
  _a_inverse : Z;
  forward : bool
}.

Definition set_x (v : Z) (self : ReversibleLCG) : ReversibleLCG :=
  mkLCG v (_m self) (_a self) (_c self) (_d self) (_a_inverse self)
        (forward self).

Definition set_forward (v : bool) (self : ReversibleLCG) : ReversibleLCG :=
  mkLCG (_x self) (_m self) (_a self) (_c self) (_d self) (_a_inverse self) v.

Definition default_m : Z := Z.shiftl 1 63.
Definition default_a : Z := 6364136223846793005.
Definition default_c : Z := 1442695040888963407.
Definition default_d : Z := 32.

(** [ReversibleLCG.__init__]: [self.x = seed] comes first, then the
    assertion, then the remaining attributes. *)
Definition __init__ (seed m a c d : Z) (a_inverse_stored : gmap (Z * Z) Z)
  : gmap (Z * Z) Z * res ReversibleLCG :=
  let x := seed in
  if is_power_of_two m then
    match get_a_inverse_value a m a_inverse_stored with
    | (stored, Ok a_inverse) => (stored, Ok (mkLCG x m a c d a_inverse true))
    | (stored, Raise e) => (stored, Raise e)
    | (stored, Diverges) => (stored, Diverges)
    end
  else (a_inverse_stored, Raise AssertionError).

(** Methods: the object in, the object and the outcome out. *)
Definition M (A : Type) : Type := ReversibleLCG -> ReversibleLCG * res A.

Definition ret {A} (v : A) : M A := fun self => (self, Ok v).
Definition raise {A} (e : exn) : M A := fun self => (self, Raise e).
Definition bind {A B} (m : M A) (k : A -> M B) : M B :=
  fun self =>
    match m self with
    | (self', Ok v) => k v self'
    | (self', Raise e) => (self', Raise e)
    | (self', Diverges) => (self', Diverges)
    end.
Definition get {A} (f : ReversibleLCG -> A) : M A :=
  fun self => (self, Ok (f self)).
Definition modify (f : ReversibleLCG -> ReversibleLCG) : M unit :=
  fun self => (f self, Ok tt).

Notation "x <- m ;; k" := (bind m (fun x => k))
  (at level 100, m at next level, right associativity).
Notation "m ;;; k" := (bind m (fun _ => k))
  (at level 100, right associativity).

Definition lift {A} (r : res A) : M A := fun self => (self, r).

(** Python's [x >> n] on integers raises on a negative shift count. *)
Definition py_rshift (x n : Z) : M Z :=
  if n <? 0 then raise ValueError else ret (Z.shiftr x n).

Definition _next_state (self : ReversibleLCG) : Z :=
  Z.land (_a self * _x self + _c self) (_m self - 1).

Definition _prev_state (self : ReversibleLCG) : Z :=
  Z.land (_a_inverse self * (_x self - _c self)) (_m self - 1).

Definition reverse : M unit :=
  modify (fun self => set_forward (negb (forward self)) self).

Definition next : M Z :=
  modify (fun self => set_x (_next_state self) self) ;;;
  x <- get _x ;; d <- get _d ;;
  py_rshift x d.

Definition prev : M Z :=
  modify (fun self => set_x (_prev_state self) self) ;;;
  x <- get _x ;; d <- get _d ;;
  py_rshift x d.

Definition __next__ : M Z :=
  fwd <- get forward ;;
  if fwd then next else prev.

(** The [max] property: [(self._m - 1) >> self._d]. *)
Definition max : M Z :=
  m <- get _m ;; d <- get _d ;;
  py_rshift (m - 1) d.

(** [[rng.next() for i in range(n)]], as the unit tests call the scalar
    operations in a loop. *)
Fixpoint calls (n : nat) (op : M Z) : M (list Z) :=
  match n with
  | O => ret nil
  | S n' => v <- op ;; vs <- calls n' op ;; ret (v :: vs)
  end.

(** ** Bulk generation *)

(** A Python generator whose body is [while True: x = f(x); yield x]:
    the local [x] and the loop body. *)
Record generator : Type := mkGen {
  gen_x : Z;
  gen_body : Z -> Z
}.

Definition gen_resume (g : generator) : Z * generator :=
  let x := gen_body g (gen_x g) in (x, mkGen x (gen_body g)).

(** Conversion of a Python integer to [uint64]. *)
Definition to_uint64 (v : Z) : res Z :=
  if (0 <=? v) && (v <? 2 ^ 64) then Ok v else Raise OverflowError.

Fixpoint fromiter_loop (count : nat) (gen : generator) : res (list Z) :=
  match count with
  | O => Ok nil
  | S count' =>
      let (v, gen') := gen_resume gen in
      match to_uint64 v with
      | Ok w =>
          match fromiter_loop count' gen' with
          | Ok ws => Ok (w :: ws)
          | Raise e => Raise e
          | Diverges => Diverges
          end
      | Raise e => Raise e
      | Diverges => Diverges
      end
  end.

(** [np.fromiter(gen, dtype='uint64', count=count)].  The count -1 reads
    the iterator to its end, and these generators have none; any other
    negative count reads nothing and gives the empty array at once. *)
Definition np_fromiter (gen : generator) (count : Z) : res (list Z) :=
  if count =? -1 then Diverges
  else if count <? 0 then Ok nil
  else fromiter_loop (Z.to_nat count) gen.

(** [x >> d] on a [uint64] array: [d] is converted to [uint64] first,
    which fails outside [0, 2 ^ 64) even on an empty array; a shift by 64
    or more gives 0, as [Z.shiftr] does below [2 ^ 64]. *)
Definition np_rshift (x : list Z) (d : Z) : res (list Z) :=
  match to_uint64 d with
  | Ok d' => Ok (List.map (fun v => Z.shiftr v d') x)
  | Raise e => Raise e
  | Diverges => Diverges
  end.

(** What [random] returns: one integer, or an array of them. *)
Inductive value : Type :=
  | Scalar (v : Z)
  | Array (vs : list Z).

Module GeneratorLCGReversible.

(** [__init__(self, seed=0)]: the parameters are always the defaults. *)
Definition __init__ (seed : Z) (a_inverse_stored : gmap (Z * Z) Z)
  : gmap (Z * Z) Z * res ReversibleLCG :=
  __init__ seed default_m default_a default_c default_d a_inverse_stored.

Definition _next_state_generator (x m a c : Z) : generator :=
  mkGen x (fun x => Z.land (a * x + c) (m - 1)).

Definition _prev_state_generator (x m a_inverse c : Z) : generator :=
  mkGen x (fun x => Z.land (a_inverse * (x - c)) (m - 1)).

(** [size] and [increment] are [None] or an integer; [np.ndim] of an
    integer is 0, so that assertion never fails here. *)
Definition random (size : option Z) (update : bool) (increment : option Z)
  : M value :=
  increment <-
    match increment with
    | None => fwd <- get forward ;; ret (if fwd then 1 else -1)
    | Some i =>
        if (i =? -1) || (i =? 1) then
          (if update then modify (set_forward (i =? 1)) else ret tt) ;;;
          ret i
        else raise AssertionError
    end ;;
  match size with
  | None =>
      if update then v <- __next__ ;; ret (Scalar v)
      else if increment =? 1 then
        s <- get _next_state ;; d <- get _d ;;
        v <- py_rshift s d ;; ret (Scalar v)
      else
        s <- get _prev_state ;; d <- get _d ;;
        v <- py_rshift s d ;; ret (Scalar v)
  | Some size =>
      gen <-
        (if increment =? 1 then
           x <- get _x ;; m <- get _m ;; a <- get _a ;; c <- get _c ;;
           ret (_next_state_generator x m a c)
         else
           x <- get _x ;; m <- get _m ;; a_inverse <- get _a_inverse ;;
           c <- get _c ;;
           ret (_prev_state_generator x m a_inverse c)) ;;
      x <- lift (np_fromiter gen size) ;;
      (if update then
         match last x with
         | None => raise IndexError
         | Some x_last => modify (set_x x_last)
         end
       else ret tt) ;;;
      d <- get _d ;;
      r <- lift (np_rshift x d) ;;
      ret (Array r)
  end.

End GeneratorLCGReversible.

(** ** Predicates and helpers of the statements *)

Definition power_of_two (m : Z) : Prop := exists k, 0 <= k /\ m = 2 ^ k.

(** Every stored entry is what [xgcd_x] computes: the only writer of
    [a_inverse_stored] is [get_a_inverse_value]. *)
Definition stored_ok (stored : gmap (Z * Z) Z) : Prop :=
  forall a b x, stored !! (a, b) = Some x -> xgcd_x a b = Some x.

Definition in_range (self : ReversibleLCG) : Prop := 0 <= _x self < _m self.

(** The parameters every [GeneratorLCGReversible] is built with. *)
Definition default_params (self : ReversibleLCG) : Prop :=
  _m self = default_m /\ _a self = default_a /\
  _c self = default_c /\ _d self = default_d.

(** The states [f x], [f (f x)], ... that [n] transitions go through. *)
Fixpoint orbit (f : Z -> Z) (n : nat) (x : Z) : list Z :=
  match n with
  | O => nil
  | S n' => f x :: orbit f n' (f x)
  end.

(** One transition of the state, forward or backward. *)
Definition step (fwd : bool) (self : ReversibleLCG) (x : Z) : Z :=
  if fwd then Z.land (_a self * x + _c self) (_m self - 1)
  else Z.land (_a_inverse self * (x - _c self)) (_m self - 1).

(** The direction a call of [random] takes. *)
Definition direction (increment : option Z) (self : ReversibleLCG) : bool :=
  match increment with
  | None => forward self
  | Some i => i =? 1
  end.

(** The calls a client can make on a generator, and a client making a
    series of them (an exception is caught and the object lives on). *)
Inductive call : Type :=
  | CallNext
  | CallPrev
  | CallReverse
  | CallIterNext
  | CallRandom (size : option Z) (update : bool) (increment : option Z).

Definition do_call (c : call) (self : ReversibleLCG) : ReversibleLCG :=
  match c with
  | CallNext => fst (next self)
  | CallPrev => fst (prev self)
  | CallReverse => fst (reverse self)
  | CallIterNext => fst (__next__ self)
  | CallRandom size update increment =>
      fst (GeneratorLCGReversible.random size update increment self)
  end.

Definition run (cs : list call) (self : ReversibleLCG) : ReversibleLCG :=
  fold_left (fun s c => do_call c s) cs self.

(** [c] is a stepping call on [self]: [next], [prev], [__next__], or a
    committing [random] that returns. *)
Definition steps (c : call) (self : ReversibleLCG) : Prop :=
  match c with
  | CallNext | CallPrev | CallIterNext => True
  | CallReverse => False
  | CallRandom size update increment =>
      update = true /\
      exists v,
        snd (GeneratorLCGReversible.random size update increment self) = Ok v
  end.

(** [a_inverse] undoes the multiplication by [a] modulo [m]. *)
Definition invertible (self : ReversibleLCG) : Prop :=
  (_a_inverse self * _a self) mod _m self = 1 mod _m self.

(** Two states of a generator with the same parameters. *)
Definition same_params (self self' : ReversibleLCG) : Prop :=
  _m self' = _m self /\ _a self' = _a self /\ _c self' = _c self /\
  _d self' = _d self /\ _a_inverse self' = _a_inverse self.

(** What a client reads in a returned value: its integers, in order. *)
Definition outputs (v : value) : list Z :=
  match v with
  | Scalar x => x :: nil
  | Array xs => xs
  end.

(** ** The extended Euclidean loop *)

Section Xgcd.

Lemma mod_mod_halves (a b : Z) :
  b <> 0 -> a mod b <> 0 -> 2 * Z.abs (b mod (a mod b)) < Z.abs b.
Proof.
  intros Hb Hr.
  destruct (Z.lt_total b 0) as [Hneg | [H0 | Hpos]]; [ | lia | ].
  - pose proof (Z.mod_neg_bound a b Hneg) as Br.
    assert (Hr' : a mod b < 0) by lia.
    pose proof (Z.mod_neg_bound b (a mod b) Hr') as Bs.
    pose proof (Z.div_mod b (a mod b) Hr) as E.
    assert (1 <= b / (a mod b)) by nia.
    nia.
  - pose proof (Z.mod_pos_bound a b Hpos) as Br.
    assert (Hr' : 0 < a mod b) by lia.
    pose proof (Z.mod_pos_bound b (a mod b) Hr') as Bs.
    pose proof (Z.div_mod b (a mod b) Hr) as E.
    assert (1 <= b / (a mod b)) by nia.
    nia.
Qed.

Lemma xgcd_x_loop_terminates (k : nat) :
  forall (fuel : nat) (x_prev x a b : Z),
    Z.abs b < 2 ^ Z.of_nat k ->
    (2 * k + 1 <= fuel)%nat ->
    exists r, xgcd_x_loop fuel x_prev x a b = Some r.
Proof.
  induction k as [ | k IH]; intros fuel x_prev x a b Hb Hfuel.
  - destruct fuel as [ | fuel]; [lia | ].
    simpl in *. replace b with 0 by lia. simpl. eauto.
  - destruct fuel as [ | [ | fuel]]; try lia.
    cbn [xgcd_x_loop].
    destruct (b =? 0) eqn:Eb; [eauto | ].
    destruct (a mod b =? 0) eqn:Er; [eauto | ].
    apply Z.eqb_neq in Eb, Er.
    apply IH; [ | lia].
    pose proof (mod_mod_halves a b Eb Er).
    rewrite Nat2Z.inj_succ, Z.pow_succ_r in Hb by lia.
    lia.
Qed.

Lemma xgcd_x_fuel_enough (b : Z) :
  Z.abs b < 2 ^ Z.of_nat (S (Z.to_nat (Z.log2 (Z.abs b)))).
Proof.
  pose proof (Z.log2_nonneg (Z.abs b)) as Hl.
  rewrite Nat2Z.inj_succ, Z2Nat.id by lia.
  destruct (Z.eq_dec b 0) as [-> | Hb].
  - reflexivity.
  - apply Z.log2_spec. lia.
Qed.

(** The loop always returns: [xgcd_x] is a total function. *)
Lemma xgcd_x_total (a b : Z) : exists x, xgcd_x a b = Some x.
Proof.
  unfold xgcd_x, xgcd_x_fuel.
  apply (xgcd_x_loop_terminates (S (Z.to_nat (Z.log2 (Z.abs b))))).
  - apply xgcd_x_fuel_enough.
  - lia.
Qed.

Variables a0 b0 : Z.

(** Both running coefficients stay Bezout coefficients of the running
    pair, whose gcd never changes. *)
Lemma xgcd_x_loop_bezout (fuel : nat) :
  forall (x_prev x a b y_prev y r : Z),
    0 <= a -> 0 <= b ->
    a0 * x_prev + b0 * y_prev = a ->
    a0 * x + b0 * y = b ->
    xgcd_x_loop fuel x_prev x a b = Some r ->
    exists y', a0 * r + b0 * y' = Z.gcd a b.
Proof.
  induction fuel as [ | fuel IH]; intros x_prev x a b y_prev y r Ha Hb E1 E2 Hr.
  - discriminate.
  - cbn [xgcd_x_loop] in Hr.
    destruct (b =? 0) eqn:Eb.
    + apply Z.eqb_eq in Eb. injection Hr as <-.
      exists y_prev. rewrite Eb, Z.gcd_0_r, Z.abs_eq by lia. exact E1.
    + apply Z.eqb_neq in Eb.
      assert (Hpos : 0 < b) by lia.
      pose proof (Z.mod_pos_bound a b Hpos) as Br.
      destruct (IH x (x_prev - a / b * x) b (a mod b)
                   y (y_prev - a / b * y) r) as [y' Hy']; try lia; auto.
      * rewrite Z.mod_eq by lia. nia.
      * exists y'. rewrite Hy'.
        rewrite Z.gcd_comm, Z.gcd_mod by lia. apply Z.gcd_comm.
Qed.

End Xgcd.

Lemma xgcd_x_bezout (a b : Z) :
  0 <= a -> 0 <= b ->
  exists x, xgcd_x a b = Some x /\ exists y, a * x + b * y = Z.gcd a b.
Proof.
  intros Ha Hb.
  destruct (xgcd_x_total a b) as [x Hx].
  exists x. split; [exact Hx | ].
  apply (xgcd_x_loop_bezout a b (xgcd_x_fuel b) 1 0 a b 0 1 x); auto; lia.
Qed.

(** ** Powers of two and masking *)

Lemma default_m_power_of_two : power_of_two default_m.
Proof. exists 63. split; [lia | reflexivity]. Qed.

Lemma land_mask (v k : Z) : 0 <= k -> Z.land v (2 ^ k - 1) = v mod 2 ^ k.
Proof.
  intros Hk. rewrite <- Z.land_ones by exact Hk.
  rewrite Z.ones_equiv. reflexivity.
Qed.

Lemma land_mask_range (v m : Z) :
  power_of_two m -> 0 <= Z.land v (m - 1) < m.
Proof.
  intros (k & Hk & ->). rewrite land_mask by exact Hk.
  apply Z.mod_pos_bound, Z.pow_pos_nonneg; lia.
Qed.

Lemma is_power_of_two_pow (k : Z) : 0 <= k -> is_power_of_two (2 ^ k) = true.
Proof.
  intros Hk. unfold is_power_of_two. apply Z.eqb_eq.
  rewrite land_mask by exact Hk. apply Z_mod_same_full.
Qed.

(** The bit trick accepts exactly zero and the powers of two. *)
Lemma is_power_of_two_spec (m : Z) :
  is_power_of_two m = true <-> m = 0 \/ power_of_two m.
Proof.
  split.
  - unfold is_power_of_two. intros H. apply Z.eqb_eq in H.
    destruct (Z.lt_total m 0) as [Hneg | [H0 | Hpos]]; [ | now left | right].
    + assert (Z.land m (m - 1) < 0) by (apply Z.land_neg; lia). lia.
    + pose proof (Z.log2_spec m Hpos) as Hl.
      pose proof (Z.log2_nonneg m) as Hn.
      exists (Z.log2 m). split; [exact Hn | ].
      destruct (Z.eq_dec m (2 ^ Z.log2 m)) as [E | NE]; [exact E | exfalso].
      assert (Hl' : Z.log2 (m - 1) = Z.log2 m)
        by (apply Z.log2_unique; [exact Hn | lia]).
      assert (Hbit : Z.testbit (Z.land m (m - 1)) (Z.log2 m) = true).
      { rewrite Z.land_spec, Z.bit_log2 by lia.
        rewrite <- Hl', Z.bit_log2 by lia. reflexivity. }
      rewrite H, Z.bits_0 in Hbit. discriminate.
  - intros [-> | (k & Hk & ->)]; [reflexivity | now apply is_power_of_two_pow].
Qed.

Lemma zero_not_power_of_two : ~ power_of_two 0.
Proof.
  intros (k & Hk & E).
  pose proof (Z.pow_pos_nonneg 2 k ltac:(lia) Hk). lia.
Qed.

(** ** The stored inverses *)

Lemma stored_ok_empty : stored_ok ∅.
Proof. intros a b x H. rewrite lookup_empty in H. discriminate. Qed.

Lemma get_a_inverse_value_total (a b : Z) (stored : gmap (Z * Z) Z) :
  exists stored' x, get_a_inverse_value a b stored = (stored', Ok x).
Proof.
  unfold get_a_inverse_value.
  destruct (stored !! (a, b)) as [x | ]; [eauto | ].
  destruct (xgcd_x_total a b) as [x ->]. eauto.
Qed.

Lemma get_a_inverse_value_ok (a b : Z) (stored stored' : gmap (Z * Z) Z)
      (r : res Z) :
  stored_ok stored ->
  get_a_inverse_value a b stored = (stored', r) ->
  stored_ok stored' /\ exists x, r = Ok x /\ xgcd_x a b = Some x.
Proof.
  unfold get_a_inverse_value. intros Hok H.
  destruct (stored !! (a, b)) as [x | ] eqn:El.
  - injection H as <- <-. split; [exact Hok | eauto].
  - destruct (xgcd_x_total a b) as [x Hx]. rewrite Hx in H.
    injection H as <- <-. split; [ | eauto].
    intros a' b' x' Hl.
    destruct (decide ((a, b) = (a', b'))) as [E | NE].
    + injection E as <- <-. rewrite lookup_insert_eq in Hl. congruence.
    + rewrite lookup_insert_ne in Hl by exact NE. now apply Hok.
Qed.

Lemma init_total (seed m a c d : Z) (stored : gmap (Z * Z) Z) :
  is_power_of_two m = true ->
  exists stored' a_inverse,
    __init__ seed m a c d stored
    = (stored', Ok (mkLCG seed m a c d a_inverse true)).
Proof.
  intros Hm. unfold __init__. rewrite Hm.
  destruct (get_a_inverse_value_total a m stored) as (stored' & x & ->).
  eauto.
Qed.

Lemma init_ok (seed m a c d : Z) (stored stored' : gmap (Z * Z) Z)
      (self : ReversibleLCG) :
  stored_ok stored ->
  __init__ seed m a c d stored = (stored', Ok self) ->
  stored_ok stored' /\
  exists a_inverse,
    xgcd_x a m = Some a_inverse /\ self = mkLCG seed m a c d a_inverse true.
Proof.
  unfold __init__. intros Hok H.
  destruct (is_power_of_two m); [ | discriminate].
  destruct (get_a_inverse_value a m stored) as [s r] eqn:Eg.
  destruct (get_a_inverse_value_ok _ _ _ _ _ Hok Eg) as (Hs & x & -> & Hx).
  injection H as <- <-. eauto.
Qed.

(** ** The scalar operations *)

Lemma next_eq (self : ReversibleLCG) :
  next self
  = (set_x (_next_state self) self,
     if _d self <? 0 then Raise ValueError
     else Ok (Z.shiftr (_next_state self) (_d self))).
Proof.
  unfold next, bind, modify, get, py_rshift, raise, ret. simpl.
  destruct (_d self <? 0); reflexivity.
Qed.

Lemma prev_eq (self : ReversibleLCG) :
  prev self
  = (set_x (_prev_state self) self,
     if _d self <? 0 then Raise ValueError
     else Ok (Z.shiftr (_prev_state self) (_d self))).
Proof.
  unfold prev, bind, modify, get, py_rshift, raise, ret. simpl.
  destruct (_d self <? 0); reflexivity.
Qed.

Lemma iter_next_eq (self : ReversibleLCG) :
  __next__ self = if forward self then next self else prev self.
Proof.
  unfold __next__, bind, get. destruct (forward self); reflexivity.
Qed.

Lemma lcg_forward_backward (m a c a_inverse x : Z) :
  m <> 0 ->
  (a_inverse * a) mod m = 1 mod m ->
  (a_inverse * ((a * x + c) mod m - c)) mod m = x mod m.
Proof.
  intros Hm Hinv.
  rewrite <- Z.mul_mod_idemp_r, Zminus_mod_idemp_l, Z.mul_mod_idemp_r
    by exact Hm.
  replace (a_inverse * (a * x + c - c)) with (a_inverse * a * x) by ring.
  rewrite <- Z.mul_mod_idemp_l, Hinv, Z.mul_mod_idemp_l by exact Hm.
  f_equal. ring.
Qed.

Lemma default_a_inverse :
  xgcd_x default_a default_m = Some (-4568919932995229531).
Proof. vm_compute. reflexivity. Qed.

Lemma next_then_prev_x (self : ReversibleLCG) :
  power_of_two (_m self) ->
  0 <= _d self ->
  (_a_inverse self * _a self) mod _m self = 1 mod _m self ->
  _x (fst ((next ;;; prev) self)) = _x self mod _m self.
Proof.
  intros (k & Hk & Hm) Hd Hinv.
  assert (Hpos : 0 < 2 ^ k) by (apply Z.pow_pos_nonneg; lia).
  unfold bind. rewrite next_eq.
  destruct (_d self <? 0) eqn:Ed; [apply Z.ltb_lt in Ed; lia | ].
  rewrite prev_eq. cbn [fst set_x _x].
  unfold _prev_state, _next_state. cbn [set_x _x _m _a _c _a_inverse].
  rewrite Hm in *. rewrite !land_mask by exact Hk.
  apply lcg_forward_backward; [lia | exact Hinv].
Qed.

(** ** Bulk generation against the scalar calls *)

Lemma set_x_id (self : ReversibleLCG) : set_x (_x self) self = self.
Proof. destruct self; reflexivity. Qed.

Lemma next_step (self : ReversibleLCG) :
  0 <= _d self ->
  next self
  = (set_x (step true self (_x self)) self,
     Ok (Z.shiftr (step true self (_x self)) (_d self))).
Proof.
  intros Hd. rewrite next_eq.
  destruct (Z.ltb_spec (_d self) 0); [lia | reflexivity].
Qed.

Lemma prev_step (self : ReversibleLCG) :
  0 <= _d self ->
  prev self
  = (set_x (step false self (_x self)) self,
     Ok (Z.shiftr (step false self (_x self)) (_d self))).
Proof.
  intros Hd. rewrite prev_eq.
  destruct (Z.ltb_spec (_d self) 0); [lia | reflexivity].
Qed.

Lemma calls_orbit (fwd : bool) (n : nat) :
  forall self : ReversibleLCG,
    0 <= _d self ->
    calls n (if fwd then next else prev) self
    = (set_x (Nat.iter n (step fwd self) (_x self)) self,
       Ok (List.map (fun v => Z.shiftr v (_d self))
                    (orbit (step fwd self) n (_x self)))).
Proof.
  induction n as [ | n IH]; intros self Hd.
  - cbn. rewrite set_x_id. reflexivity.
  - cbn [calls]. unfold bind at 1.
    assert (E : (if fwd then next else prev) self
                = (set_x (step fwd self (_x self)) self,
                   Ok (Z.shiftr (step fwd self (_x self)) (_d self)))).
    { destruct fwd; [now apply next_step | now apply prev_step]. }
    rewrite E. unfold bind at 1. rewrite IH by exact Hd.
    rewrite Nat.iter_succ_r. reflexivity.
Qed.

Lemma orbit_length (f : Z -> Z) (n : nat) :
  forall x, length (orbit f n x) = n.
Proof.
  induction n as [ | n IH]; intros x; cbn; [ | rewrite IH]; reflexivity.
Qed.

Lemma orbit_last (f : Z -> Z) (n : nat) :
  forall x, last (orbit f (S n) x) = Some (Nat.iter (S n) f x).
Proof.
  induction n as [ | n IH]; intros x.
  - reflexivity.
  - change (orbit f (S (S n)) x) with (f x :: orbit f (S n) (f x)).
    change (orbit f (S n) (f x)) with (f (f x) :: orbit f n (f (f x))).
    rewrite last_cons_cons.
    change (f (f x) :: orbit f n (f (f x))) with (orbit f (S n) (f x)).
    rewrite IH, <- Nat.iter_succ_r. reflexivity.
Qed.

Lemma fromiter_loop_orbit (f : Z -> Z) (n : nat) :
  (forall v, 0 <= f v < 2 ^ 64) ->
  forall x, fromiter_loop n (mkGen x f) = Ok (orbit f n x).
Proof.
  intros Hf. induction n as [ | n IH]; intros x.
  - reflexivity.
  - cbn [fromiter_loop gen_resume gen_body gen_x orbit].
    unfold to_uint64.
    destruct (Z.leb_spec 0 (f x)); [ | specialize (Hf x); lia].
    destruct (Z.ltb_spec (f x) (2 ^ 64)); [ | specialize (Hf x); lia].
    cbn [andb]. rewrite IH. reflexivity.
Qed.

Lemma step_range (fwd : bool) (self : ReversibleLCG) (x : Z) :
  power_of_two (_m self) -> 0 <= step fwd self x < _m self.
Proof. intros Hm. destruct fwd; cbn; now apply land_mask_range. Qed.

Lemma bulk_states (b : bool) (self : ReversibleLCG) (N : Z) :
  power_of_two (_m self) -> _m self <= 2 ^ 64 -> 1 <= N ->
  let xs := orbit (step b self) (Z.to_nat N) (_x self) in
  fromiter_loop (Z.to_nat N) (mkGen (_x self) (step b self)) = Ok xs /\
  last xs = Some (Nat.iter (Z.to_nat N) (step b self) (_x self)).
Proof.
  intros Hm Hm64 HN xs. split.
  - apply fromiter_loop_orbit.
    intros v. pose proof (step_range b self v Hm). lia.
  - subst xs. destruct (Z.to_nat N) as [ | n] eqn:En; [lia | apply orbit_last].
Qed.

Lemma random_bulk (self : ReversibleLCG) (N : Z) (update : bool)
      (increment : option Z) :
  power_of_two (_m self) -> _m self <= 2 ^ 64 -> 0 <= _d self < 2 ^ 64 ->
  1 <= N ->
  increment = None \/ increment = Some 1 \/ increment = Some (-1) ->
  let fwd := direction increment self in
  let xs := orbit (step fwd self) (Z.to_nat N) (_x self) in
  GeneratorLCGReversible.random (Some N) update increment self
  = ((if update then
        set_x (Nat.iter (Z.to_nat N) (step fwd self) (_x self))
              (match increment with
               | Some i => set_forward (i =? 1) self
               | None => self
               end)
      else self),
     Ok (Array (List.map (fun v => Z.shiftr v (_d self)) xs))).
Proof.
  intros Hm Hm64 Hd HN Hinc fwd xs.
  assert (Hs : fromiter_loop (Z.to_nat N) (mkGen (_x self) (step fwd self))
               = Ok xs /\
               last xs = Some (Nat.iter (Z.to_nat N) (step fwd self) (_x self)))
    by now apply bulk_states.
  destruct Hs as [Hit Hlast].
  unfold GeneratorLCGReversible.random, np_fromiter, np_rshift.
  destruct (Z.eqb_spec N (-1)); [lia | ].
  destruct (Z.ltb_spec N 0); [lia | ].
  assert (Hd' : to_uint64 (_d self) = Ok (_d self)).
  { unfold to_uint64.
    destruct (Z.leb_spec 0 (_d self)); [ | lia].
    destruct (Z.ltb_spec (_d self) (2 ^ 64)); [reflexivity | lia]. }
  unfold bind, get, ret, modify, lift.
  destruct Hinc as [-> | [-> | ->]]; cbn [direction] in fwd;
    [destruct (forward self) eqn:Ef | | ];
    subst fwd; destruct update; cbn in Hit, Hlast |- *;
    unfold GeneratorLCGReversible._next_state_generator,
      GeneratorLCGReversible._prev_state_generator;
    cbv beta iota delta [step] in Hit; rewrite Hit; cbn;
    rewrite ?Hlast; cbn; rewrite Hd'; reflexivity.
Qed.

Lemma fromiter_loop_elem (n : nat) :
  forall (gen : generator) (vs : list Z) (v : Z),
    fromiter_loop n gen = Ok vs -> v ∈ vs -> exists y, v = gen_body gen y.
Proof.
  induction n as [ | n IH]; intros gen vs v H Hin.
  - injection H as <-. inversion Hin.
  - cbn [fromiter_loop gen_resume] in H. unfold to_uint64 in H.
    destruct ((0 <=? gen_body gen (gen_x gen))
              && (gen_body gen (gen_x gen) <? 2 ^ 64)); [ | discriminate].
    destruct (fromiter_loop n _) as [ws | | ] eqn:E; try discriminate.
    injection H as <-.
    apply elem_of_cons in Hin as [-> | Hin]; [eauto | ].
    apply (IH _ _ _ E Hin).
Qed.

Lemma np_fromiter_last (gen : generator) (size : Z) (vs : list Z) (v : Z) :
  np_fromiter gen size = Ok vs -> last vs = Some v ->
  exists y, v = gen_body gen y.
Proof.
  unfold np_fromiter. destruct (size =? -1); [discriminate | ].
  destruct (size <? 0); [intros H; injection H as <-; discriminate | ].
  intros H Hl. apply (fromiter_loop_elem _ _ _ _ H).
  now apply last_Some_elem_of.
Qed.

Ltac unfold_random :=
  unfold GeneratorLCGReversible.random, __next__, next, prev, py_rshift,
    bind, get, ret, raise, modify, lift.

Ltac solve_masked :=
  first
    [ exists true; eexists; reflexivity
    | exists false; eexists; reflexivity
    | match goal with
      | H : np_fromiter (GeneratorLCGReversible._next_state_generator _ _ _ _) _
            = Ok ?vs,
        Hl : last ?vs = Some _ |- _ =>
          destruct (np_fromiter_last _ _ _ _ H Hl) as [? ->];
          exists true; eexists; reflexivity
      | H : np_fromiter (GeneratorLCGReversible._prev_state_generator _ _ _ _) _
            = Ok ?vs,
        Hl : last ?vs = Some _ |- _ =>
          destruct (np_fromiter_last _ _ _ _ H Hl) as [? ->];
          exists false; eexists; reflexivity
      end ].

Lemma random_state (size : option Z) (update : bool) (increment : option Z)
      (self : ReversibleLCG) :
  let self' := fst (GeneratorLCGReversible.random size update increment self) in
  _m self' = _m self /\
  (_x self' = _x self \/ exists b y, _x self' = step b self y).
Proof.
  unfold_random.
  repeat case_match; simplify_eq/=; (split; [reflexivity | ]);
    first [left; reflexivity | right; solve_masked].
Qed.

Lemma random_commit_state (size : option Z) (increment : option Z)
      (self : ReversibleLCG) (v : value) :
  snd (GeneratorLCGReversible.random size true increment self) = Ok v ->
  exists b y,
    _x (fst (GeneratorLCGReversible.random size true increment self))
    = step b self y.
Proof.
  unfold_random.
  repeat case_match; simplify_eq/=; intros; simplify_eq; solve_masked.
Qed.

(** ** Series of calls *)

Lemma do_call_state (c : call) (self : ReversibleLCG) :
  _m (do_call c self) = _m self /\
  (_x (do_call c self) = _x self \/
   exists b y, _x (do_call c self) = step b self y).
Proof.
  destruct c as [ | | | | size update increment]; cbn [do_call].
  - rewrite next_eq. split; [reflexivity | right; solve_masked].
  - rewrite prev_eq. split; [reflexivity | right; solve_masked].
  - split; [reflexivity | left; reflexivity].
  - rewrite iter_next_eq. destruct (forward self).
    + rewrite next_eq. split; [reflexivity | right; solve_masked].
    + rewrite prev_eq. split; [reflexivity | right; solve_masked].
  - apply random_state.
Qed.

Lemma do_call_in_range (c : call) (self : ReversibleLCG) :
  power_of_two (_m self) -> in_range self -> in_range (do_call c self).
Proof.
  intros Hm Hr. unfold in_range in *.
  destruct (do_call_state c self) as [Em [Ex | (b & y & Ex)]];
    rewrite Em, Ex; [exact Hr | now apply step_range].
Qed.

Lemma steps_in_range (c : call) (self : ReversibleLCG) :
  power_of_two (_m self) -> steps c self -> in_range (do_call c self).
Proof.
  intros Hm Hs. unfold in_range.
  destruct (do_call_state c self) as [Em _]. rewrite Em.
  assert (Ex : exists b y, _x (do_call c self) = step b self y).
  { destruct c as [ | | | | size update increment]; cbn [do_call steps] in *.
    - rewrite next_eq. exists true. eexists. reflexivity.
    - rewrite prev_eq. exists false. eexists. reflexivity.
    - contradiction.
    - rewrite iter_next_eq. destruct (forward self).
      + rewrite next_eq. exists true. eexists. reflexivity.
      + rewrite prev_eq. exists false. eexists. reflexivity.
    - destruct Hs as [-> [v Hv]]. now apply (random_commit_state _ _ _ v). }
  destruct Ex as (b & y & ->). now apply step_range.
Qed.

Lemma run_in_range (cs : list call) :
  forall self : ReversibleLCG,
    power_of_two (_m self) -> in_range self -> in_range (run cs self).
Proof.
  induction cs as [ | c cs IH]; intros self Hm Hr; [exact Hr | ].
  cbn [run fold_left]. apply IH.
  - destruct (do_call_state c self) as [-> _]. exact Hm.
  - now apply do_call_in_range.
Qed.

(** ** The claims *)

(** C1.  With the default parameters and seed 42, five successive calls of
    [next] return 293047021, 968358053, 1773127077, 560055359 and
    773728940, in that order (whatever inverses are already stored). *)
Theorem next_reference_vector (stored : gmap (Z * Z) Z) :
  exists stored' self,
    __init__ 42 default_m default_a default_c default_d stored
    = (stored', Ok self) /\
    snd (calls 5 next self)
    = Ok (293047021 :: 968358053 :: 1773127077 :: 560055359 :: 773728940
            :: nil).
Proof.
  destruct (init_total 42 default_m default_a default_c default_d stored
              eq_refl) as (stored' & a_inverse & E).
  exists stored',
    (mkLCG 42 default_m default_a default_c default_d a_inverse true).
  split; [exact E | ].
  vm_compute. reflexivity.
Qed.

(** C2, as stated, fails for a seed outside [0, m): built with seed -1,
    the generator holds x = 2^63 - 1 after [next] and then [prev]. *)
Lemma next_prev_seed_minus_one :
  exists self,
    snd (__init__ (-1) default_m default_a default_c default_d ∅) = Ok self /\
    _x self = -1 /\
    _x (fst ((next ;;; prev) self)) = 9223372036854775807 /\
    _x (fst ((next ;;; prev) self)) <> _x self.
Proof.
  exists (mkLCG (-1) default_m default_a default_c default_d
                (-4568919932995229531) true).
  split; [vm_compute; reflexivity | ].
  split; [reflexivity | ].
  split; [vm_compute; reflexivity | ].
  vm_compute. discriminate.
Qed.

(** C2, amended.  With the default parameters, [next] followed at once by
    [prev] leaves x equal to the seed reduced modulo m; so it restores x
    exactly for every seed in [0, m). *)
Theorem next_prev_restores_state (seed : Z) (stored : gmap (Z * Z) Z) :
  stored_ok stored ->
  exists stored' self,
    __init__ seed default_m default_a default_c default_d stored
    = (stored', Ok self) /\
    _x self = seed /\
    _x (fst ((next ;;; prev) self)) = seed mod default_m /\
    (0 <= seed < default_m -> _x (fst ((next ;;; prev) self)) = _x self).
Proof.
  intros Hok.
  destruct (init_total seed default_m default_a default_c default_d stored
              eq_refl) as (stored' & a_inverse & E).
  destruct (init_ok _ _ _ _ _ _ _ _ Hok E) as (_ & x & Hx & Hself).
  rewrite default_a_inverse in Hx. injection Hx as <-.
  exists stored', (mkLCG seed default_m default_a default_c default_d
                         (-4568919932995229531) true).
  injection Hself as ->.
  split; [exact E | ]. split; [reflexivity | ].
  assert (Hrt : _x (fst ((next ;;; prev)
                   (mkLCG seed default_m default_a default_c default_d
                          (-4568919932995229531) true)))
                = seed mod default_m).
  { apply next_then_prev_x; cbn [_m _d _a _a_inverse].
    - apply default_m_power_of_two.
    - unfold default_d. lia.
    - vm_compute. reflexivity. }
  split; [exact Hrt | ].
  intros Hseed. rewrite Hrt. cbn [_x]. apply Z.mod_small. exact Hseed.
Qed.

Lemma next_prev_restores_state_witness :
  stored_ok ∅ /\
  exists stored' self,
    __init__ 42 default_m default_a default_c default_d ∅ = (stored', Ok self) /\
    _x self = 42 /\
    _x (fst ((next ;;; prev) self)) = 42 mod default_m /\
    (0 <= 42 < default_m -> _x (fst ((next ;;; prev) self)) = _x self).
Proof.
  split; [apply stored_ok_empty | ].
  apply (next_prev_restores_state 42 ∅). apply stored_ok_empty.
Defined.

(** C3.  On a generator with the default parameters, for every count
    N >= 1 and either direction (taken from the generator or given as
    increment 1 or -1), [random(size=N)] returns the very sequence that N
    successive calls of [next] (forward) or [prev] (backward) return from
    the same state; with [update=True] it leaves x where the N scalar
    calls leave it, and with [update=False] it leaves the generator alone. *)
Theorem random_bulk_matches_scalar (self : ReversibleLCG) (N : Z)
        (update : bool) (increment : option Z) :
  default_params self ->
  1 <= N ->
  increment = None \/ increment = Some 1 \/ increment = Some (-1) ->
  exists outs self_scalar self_bulk,
    calls (Z.to_nat N) (if direction increment self then next else prev) self
    = (self_scalar, Ok outs) /\
    GeneratorLCGReversible.random (Some N) update increment self
    = (self_bulk, Ok (Array outs)) /\
    length outs = Z.to_nat N /\
    (update = true -> _x self_bulk = _x self_scalar) /\
    (update = false -> self_bulk = self).
Proof.
  intros (Hm & _ & _ & Hd) HN Hinc.
  assert (Hpow : power_of_two (_m self))
    by (rewrite Hm; apply default_m_power_of_two).
  assert (Hm64 : _m self <= 2 ^ 64) by (rewrite Hm; vm_compute; discriminate).
  assert (Hd0 : 0 <= _d self < 2 ^ 64)
    by (rewrite Hd; unfold default_d; lia).
  eexists _, _, _.
  split; [apply calls_orbit; lia | ].
  split; [apply random_bulk; assumption | ].
  split; [rewrite length_map; apply orbit_length | ].
  split.
  - intros ->. destruct increment; reflexivity.
  - intros ->. reflexivity.
Qed.

Lemma random_bulk_matches_scalar_witness :
  let self := mkLCG 42 default_m default_a default_c default_d
                    (-4568919932995229531) true in
  default_params self /\ 1 <= 3 /\
  exists outs self_scalar self_bulk,
    calls (Z.to_nat 3) (if direction (Some (-1)) self then next else prev) self
    = (self_scalar, Ok outs) /\
    GeneratorLCGReversible.random (Some 3) true (Some (-1)) self
    = (self_bulk, Ok (Array outs)) /\
    length outs = Z.to_nat 3 /\
    (true = true -> _x self_bulk = _x self_scalar) /\
    (true = false -> self_bulk = self).
Proof.
  intros self.
  assert (Hp : default_params self) by (repeat split).
  split; [exact Hp | ]. split; [lia | ].
  apply (random_bulk_matches_scalar self 3 true (Some (-1)) Hp); [lia | ].
  right. right. reflexivity.
Defined.

(** C4.  For non-negative a and b, [xgcd_x a b] returns an x for which
    some y gives a*x + b*y = gcd(a, b); and [xgcd_x 46 240] is 47. *)
Theorem xgcd_x_correct :
  (forall a b, 0 <= a -> 0 <= b ->
     exists x, xgcd_x a b = Some x /\ exists y, a * x + b * y = Z.gcd a b) /\
  xgcd_x 46 240 = Some 47.
Proof.
  split.
  - intros a b Ha Hb. now apply xgcd_x_bezout.
  - vm_compute. reflexivity.
Qed.

Lemma xgcd_x_correct_witness :
  0 <= 46 /\ 0 <= 240 /\
  exists x, xgcd_x 46 240 = Some x /\ exists y, 46 * x + 240 * y = Z.gcd 46 240.
Proof.
  split; [lia | ]. split; [lia | ].
  apply (proj1 xgcd_x_correct 46 240); lia.
Defined.

(** C5, as stated, fails at construction: built with seed -1, the
    generator holds x = -1, outside [0, m). *)
Lemma init_keeps_seed_minus_one :
  exists self,
    snd (__init__ (-1) default_m default_a default_c default_d ∅) = Ok self /\
    _x self = -1 /\ ~ in_range self.
Proof.
  exists (mkLCG (-1) default_m default_a default_c default_d
                (-4568919932995229531) true).
  split; [vm_compute; reflexivity | ].
  split; [reflexivity | ].
  unfold in_range. cbn [_x]. lia.
Qed.

(** C5, amended.  For a power-of-two modulus m and every seed, x lies in
    [0, m) after every state transition: after [next], after [prev], and
    at each state produced in bulk generation.  The constructor stores the
    seed as it is, so x lies in [0, m) right after construction exactly
    when the seed does, and then stays there through any series of calls. *)
Theorem transitions_mask_state (seed m a c d : Z) (stored : gmap (Z * Z) Z) :
  power_of_two m ->
  exists stored' self,
    __init__ seed m a c d stored = (stored', Ok self) /\
    (in_range self <-> 0 <= seed < m) /\
    in_range (fst (next self)) /\
    in_range (fst (prev self)) /\
    (forall (n : nat) (x : Z) (vs : list Z) (v : Z),
       fromiter_loop n (GeneratorLCGReversible._next_state_generator
                          x (_m self) (_a self) (_c self)) = Ok vs \/
       fromiter_loop n (GeneratorLCGReversible._prev_state_generator
                          x (_m self) (_a_inverse self) (_c self)) = Ok vs ->
       v ∈ vs -> 0 <= v < m) /\
    (0 <= seed < m -> forall cs, in_range (run cs self)).
Proof.
  intros Hm.
  assert (Hp : is_power_of_two m = true)
    by (apply is_power_of_two_spec; now right).
  destruct (init_total seed m a c d stored Hp) as (stored' & a_inverse & E).
  exists stored', (mkLCG seed m a c d a_inverse true).
  split; [exact E | ].
  split; [reflexivity | ].
  split; [apply (steps_in_range CallNext); [exact Hm | exact I] | ].
  split; [apply (steps_in_range CallPrev); [exact Hm | exact I] | ].
  split.
  - intros n x vs v [H | H] Hin;
      destruct (fromiter_loop_elem _ _ _ _ H Hin) as [y ->];
      cbn [gen_body GeneratorLCGReversible._next_state_generator
             GeneratorLCGReversible._prev_state_generator _m];
      now apply land_mask_range.
  - intros Hseed cs. apply run_in_range; [exact Hm | exact Hseed].
Qed.

Lemma transitions_mask_state_witness :
  power_of_two default_m /\
  exists stored' self,
    __init__ 42 default_m default_a default_c default_d ∅ = (stored', Ok self) /\
    (in_range self <-> 0 <= 42 < default_m) /\
    in_range (fst (next self)) /\
    in_range (fst (prev self)) /\
    (forall (n : nat) (x : Z) (vs : list Z) (v : Z),
       fromiter_loop n (GeneratorLCGReversible._next_state_generator
                          x (_m self) (_a self) (_c self)) = Ok vs \/
       fromiter_loop n (GeneratorLCGReversible._prev_state_generator
                          x (_m self) (_a_inverse self) (_c self)) = Ok vs ->
       v ∈ vs -> 0 <= v < default_m) /\
    (0 <= 42 < default_m -> forall cs, in_range (run cs self)).
Proof.
  split; [apply default_m_power_of_two | ].
  apply (transitions_mask_state 42 default_m default_a default_c default_d ∅).
  apply default_m_power_of_two.
Defined.

(** C6, as stated, fails at m = 0: zero is not a power of two, yet the
    bit trick accepts it and the constructor returns a generator. *)
Lemma init_accepts_zero_modulus :
  ~ power_of_two 0 /\
  snd (__init__ 42 0 default_a default_c default_d ∅)
  = Ok (mkLCG 42 0 default_a default_c default_d 1 true).
Proof.
  split; [exact zero_not_power_of_two | ].
  vm_compute. reflexivity.
Qed.

(** C6, amended.  The constructor fails with an assertion error, leaving
    the stored inverses as they were, exactly when m is neither zero nor a
    power of two; it returns a generator holding the arguments whenever m
    is a power of two, and also when m is zero. *)
Theorem init_power_of_two_check (seed m a c d : Z) (stored : gmap (Z * Z) Z) :
  (m = 0 \/ power_of_two m ->
   exists stored' a_inverse,
     __init__ seed m a c d stored
     = (stored', Ok (mkLCG seed m a c d a_inverse true))) /\
  (~ (m = 0 \/ power_of_two m) ->
   __init__ seed m a c d stored = (stored, Raise AssertionError)).
Proof.
  split.
  - intros Hm. apply init_total. now apply is_power_of_two_spec.
  - intros Hm. unfold __init__.
    destruct (is_power_of_two m) eqn:E; [ | reflexivity].
    apply is_power_of_two_spec in E. contradiction.
Qed.

Lemma init_power_of_two_check_witness :
  (256 = 0 \/ power_of_two 256) /\
  exists stored' a_inverse,
    __init__ 7 256 5 3 4 ∅ = (stored', Ok (mkLCG 7 256 5 3 4 a_inverse true)).
Proof.
  assert (H : 256 = 0 \/ power_of_two 256).
  { right. exists 8. split; [lia | reflexivity]. }
  split; [exact H | ].
  exact (proj1 (init_power_of_two_check 7 256 5 3 4 ∅) H).
Defined.

(** C7.  A call of [random] with [update=False], with or without a size
    and in either direction, leaves the generator as it was (x and
    direction included), so a second peek right after it returns what
    the first one did. *)
Theorem random_peek_pure (size increment : option Z) (self : ReversibleLCG) :
  fst (GeneratorLCGReversible.random size false increment self) = self /\
  GeneratorLCGReversible.random size false increment
    (fst (GeneratorLCGReversible.random size false increment self))
  = GeneratorLCGReversible.random size false increment self.
Proof.
  assert (H : fst (GeneratorLCGReversible.random size false increment self)
              = self).
  { unfold GeneratorLCGReversible.random, py_rshift, bind, get, ret, raise,
      modify, lift.
    repeat case_match; simplify_eq; reflexivity. }
  split; [exact H | ]. rewrite H. reflexivity.
Qed.

(** C8.  A call of [random] whose increment is an integer other than -1
    and 1 raises an assertion error and leaves the generator (x and
    direction) as it was. *)
Theorem random_bad_increment (size : option Z) (update : bool) (i : Z)
        (self : ReversibleLCG) :
  i <> -1 -> i <> 1 ->
  GeneratorLCGReversible.random size update (Some i) self
  = (self, Raise AssertionError).
Proof.
  intros H1 H2. unfold GeneratorLCGReversible.random, bind, raise.
  destruct (Z.eqb_spec i (-1)) as [E | _]; [contradiction | ].
  destruct (Z.eqb_spec i 1) as [E | _]; [contradiction | ].
  reflexivity.
Qed.

Lemma random_bad_increment_witness :
  2 <> -1 /\ 2 <> 1 /\
  GeneratorLCGReversible.random (Some 3) true (Some 2)
    (mkLCG 42 default_m default_a default_c default_d 0 false)
  = (mkLCG 42 default_m default_a default_c default_d 0 false,
     Raise AssertionError).
Proof.
  split; [lia | ]. split; [lia | ].
  apply random_bad_increment; lia.
Defined.

(** C9.  [is_power_of_two] is true on 0, 1, 2, 8 and 256 and false on
    -1, 3, 9 and 257; zero passes the bit trick. *)
Theorem is_power_of_two_reference :
  is_power_of_two 0 = true /\ is_power_of_two 1 = true /\
  is_power_of_two 2 = true /\ is_power_of_two 8 = true /\
  is_power_of_two 256 = true /\
  is_power_of_two (-1) = false /\ is_power_of_two 3 = false /\
  is_power_of_two 9 = false /\ is_power_of_two 257 = false.
Proof. repeat split; reflexivity. Qed.

(** C10, as stated, fails at m = 0, a modulus the constructor accepts:
    built with seed 42 and m = 0, the generator holds
    x = 268736416442454269617 after [next], and no x lies in [0, 0). *)
Lemma zero_modulus_never_in_range :
  exists self,
    snd (__init__ 42 0 default_a default_c default_d ∅) = Ok self /\
    _x self = 42 /\
    _x (fst (next self)) = 268736416442454269617 /\
    ~ in_range (fst (next self)).
Proof.
  exists (mkLCG 42 0 default_a default_c default_d 1 true).
  split; [vm_compute; reflexivity | ].
  split; [reflexivity | ].
  split; [vm_compute; reflexivity | ].
  rewrite next_eq. unfold in_range. cbn [fst set_x _x _m]. lia.
Qed.

(** C10, amended.  For every integer seed, negative seeds and seeds >= m
    included, and every modulus the constructor accepts (zero or a power
    of two), the constructor stores x = seed as it is; when m is a power
    of two, after a first stepping call ([next], [prev], [__next__], or a
    committing [random] that returns) x lies in [0, m), and it still does
    after any further series of calls. *)
Theorem seed_unmasked_then_in_range (seed m a c d : Z)
        (stored : gmap (Z * Z) Z) :
  m = 0 \/ power_of_two m ->
  exists stored' self,
    __init__ seed m a c d stored = (stored', Ok self) /\
    _x self = seed /\
    (power_of_two m ->
     forall (first : call) (cs : list call),
       steps first self ->
       in_range (do_call first self) /\ in_range (run (first :: cs) self)).
Proof.
  intros Hacc.
  assert (Hp : is_power_of_two m = true)
    by (apply is_power_of_two_spec; exact Hacc).
  destruct (init_total seed m a c d stored Hp) as (stored' & a_inverse & E).
  exists stored', (mkLCG seed m a c d a_inverse true).
  split; [exact E | ]. split; [reflexivity | ].
  intros Hm first cs Hs.
  assert (Hr : in_range (do_call first (mkLCG seed m a c d a_inverse true)))
    by (apply steps_in_range; [exact Hm | exact Hs]).
  split; [exact Hr | ].
  cbn [run fold_left]. apply run_in_range; [ | exact Hr].
  destruct (do_call_state first (mkLCG seed m a c d a_inverse true)) as [-> _].
  exact Hm.
Qed.

Lemma seed_unmasked_then_in_range_witness :
  (default_m = 0 \/ power_of_two default_m) /\
  exists stored' self,
    __init__ (-5) default_m default_a default_c default_d ∅
    = (stored', Ok self) /\
    _x self = -5 /\
    (forall (first : call) (cs : list call),
       steps first self ->
       in_range (do_call first self) /\ in_range (run (first :: cs) self)).
Proof.
  assert (Hacc : default_m = 0 \/ power_of_two default_m)
    by (right; apply default_m_power_of_two).
  split; [exact Hacc | ].
  destruct (seed_unmasked_then_in_range (-5) default_m default_a default_c
                                        default_d ∅ Hacc)
    as (stored' & self & E & Hx & Hsteps).
  exists stored', self.
  split; [exact E | ]. split; [exact Hx | ].
  exact (Hsteps default_m_power_of_two).
Defined.

(** A committing [random] on a generator built from a negative seed is a
    stepping call: it returns, and x is in range afterwards. *)
Example random_commit_from_negative_seed :
  let self := mkLCG (-5) default_m default_a default_c default_d
                    (-4568919932995229531) true in
  steps (CallRandom (Some 2) true (Some (-1))) self /\
  _x (do_call (CallRandom (Some 2) true (Some (-1))) self)
  = 2211657064673923553.
Proof.
  intros self. split.
  - split; [reflexivity | ]. eexists. vm_compute. reflexivity.
  - vm_compute. reflexivity.
Qed.

(** Two peeks in a row on the generator of the unit tests: the same
    value both times, and the object untouched. *)
Example random_peek_twice :
  let self := mkLCG 42 default_m default_a default_c default_d
                    (-4568919932995229531) true in
  GeneratorLCGReversible.random None false None self
  = (self, Ok (Scalar 293047021)) /\
  GeneratorLCGReversible.random (Some 2) false (Some 1) self
  = (self, Ok (Array (293047021 :: 968358053 :: nil))).
Proof. intros self. split; vm_compute; reflexivity. Qed.

(** ** Further properties: the module-level functions *)

Lemma gcd_odd_pow2 (a k : Z) :
  Z.odd a = true -> 0 <= k -> Z.gcd a (2 ^ k) = 1.
Proof.
  intros Ha Hk. apply Z.coprime_pow_r; [exact Hk | ].
  unfold Z.coprime.
  rewrite Z.gcd_comm, <- Z.gcd_mod by lia.
  rewrite Zmod_odd, Ha. reflexivity.
Qed.

Lemma xgcd_x_bezout_pos (a b : Z) :
  0 < b ->
  exists x, xgcd_x a b = Some x /\ exists y, a * x + b * y = Z.gcd a b.
Proof.
  intros Hb.
  destruct (xgcd_x_total a b) as [x Hx].
  exists x. split; [exact Hx | ].
  unfold xgcd_x, xgcd_x_fuel in Hx. cbn [xgcd_x_loop] in Hx.
  destruct (Z.eqb_spec b 0) as [E | _]; [lia | ].
  pose proof (Z.mod_pos_bound a b Hb) as Br.
  assert (E1 : a * 0 + b * 1 = b) by ring.
  assert (E2 : a * (1 - a / b * 0) + b * (- (a / b)) = a mod b)
    by (rewrite Z.mod_eq by lia; ring).
  destruct (xgcd_x_loop_bezout a b _ _ _ _ _ _ _ x
              (Z.lt_le_incl _ _ Hb) (proj1 Br) E1 E2 Hx) as [y Hy].
  exists y. rewrite Hy, Z.gcd_comm, Z.gcd_mod by lia. apply Z.gcd_comm.
Qed.

Lemma xgcd_x_inverse (a b : Z) :
  0 < b -> Z.gcd a b = 1 ->
  exists x, xgcd_x a b = Some x /\ (x * a) mod b = 1 mod b.
Proof.
  intros Hb Hg.
  destruct (xgcd_x_bezout_pos a b Hb) as (x & Hx & y & Hy).
  exists x. split; [exact Hx | ].
  replace (x * a) with (1 + (- y) * b) by lia.
  apply Z_mod_plus_full.
Qed.

(** X1.  [is_power_of_two x] holds exactly when x is zero or 2^k for
    some k >= 0; no negative number passes. *)
Theorem is_power_of_two_iff (x : Z) :
  (is_power_of_two x = true <-> x = 0 \/ power_of_two x) /\
  (x < 0 -> is_power_of_two x = false).
Proof.
  split; [apply is_power_of_two_spec | ].
  intros Hx. destruct (is_power_of_two x) eqn:E; [ | reflexivity].
  apply is_power_of_two_spec in E as [-> | (k & Hk & ->)]; [lia | ].
  pose proof (Z.pow_pos_nonneg 2 k ltac:(lia) Hk). lia.
Qed.

Lemma is_power_of_two_iff_witness :
  -8 < 0 /\ is_power_of_two (-8) = false.
Proof.
  split; [lia | ]. apply (proj2 (is_power_of_two_iff (-8))). lia.
Defined.

(** X2.  For a modulus b > 0 and any integer a coprime to it, [xgcd_x a b]
    returns a multiplicative inverse of a modulo b. *)
Theorem xgcd_x_modular_inverse (a b : Z) :
  0 < b -> Z.gcd a b = 1 ->
  exists x, xgcd_x a b = Some x /\ (a * x) mod b = 1 mod b.
Proof.
  intros Hb Hg. destruct (xgcd_x_inverse a b Hb Hg) as (x & Hx & Hi).
  exists x. split; [exact Hx | ]. rewrite Z.mul_comm. exact Hi.
Qed.

Lemma xgcd_x_modular_inverse_witness :
  0 < 240 /\ Z.gcd 7 240 = 1 /\
  exists x, xgcd_x 7 240 = Some x /\ (7 * x) mod 240 = 1 mod 240.
Proof.
  split; [lia | ]. split; [reflexivity | ].
  apply (xgcd_x_modular_inverse 7 240); [lia | reflexivity].
Defined.

(** X3.  [get_a_inverse_value a b] always returns a value; afterwards the
    dictionary holds that value under (a, b) and every other key as
    before.  A stored value is returned as it is, the dictionary
    unchanged; a missing one is computed by [xgcd_x] and stored.  Calling
    again returns the same value and changes nothing. *)
Theorem get_a_inverse_value_cached (a b : Z) (stored : gmap (Z * Z) Z) :
  exists stored' x,
    get_a_inverse_value a b stored = (stored', Ok x) /\
    stored' !! (a, b) = Some x /\
    (forall k, k <> (a, b) -> stored' !! k = stored !! k) /\
    (forall v, stored !! (a, b) = Some v -> x = v /\ stored' = stored) /\
    (stored !! (a, b) = None -> xgcd_x a b = Some x) /\
    get_a_inverse_value a b stored' = (stored', Ok x).
Proof.
  unfold get_a_inverse_value.
  destruct (stored !! (a, b)) as [v | ] eqn:El.
  - exists stored, v. rewrite El.
    repeat split; try reflexivity; congruence.
  - destruct (xgcd_x_total a b) as [x Hx]. rewrite Hx.
    exists (<[(a, b) := x]> stored), x.
    rewrite lookup_insert_eq.
    repeat split; try reflexivity; try discriminate.
    intros k Hk. apply lookup_insert_ne. congruence.
Qed.

(** X4.  Two generators built one after the other with the same a and m
    share one inverse: the second constructor call finds the entry the
    first one left, returns the same [a_inverse] and leaves the
    dictionary as it is, whatever the seeds, c and d. *)
Theorem init_reuses_stored_inverse (seed1 seed2 m a c1 c2 d1 d2 : Z)
        (stored stored1 : gmap (Z * Z) Z) (self1 : ReversibleLCG) :
  __init__ seed1 m a c1 d1 stored = (stored1, Ok self1) ->
  __init__ seed2 m a c2 d2 stored1
  = (stored1, Ok (mkLCG seed2 m a c2 d2 (_a_inverse self1) true)).
Proof.
  unfold __init__. destruct (is_power_of_two m); [ | discriminate].
  destruct (get_a_inverse_value_cached a m stored)
    as (s' & x & -> & _ & _ & _ & _ & Hagain).
  intros H. injection H as <- <-. rewrite Hagain. reflexivity.
Qed.

Lemma init_reuses_stored_inverse_witness :
  exists stored1 self1,
    __init__ 1 16 5 3 2 ∅ = (stored1, Ok self1) /\
    __init__ 9 16 5 7 0 stored1
    = (stored1, Ok (mkLCG 9 16 5 7 0 (_a_inverse self1) true)).
Proof.
  destruct (init_total 1 16 5 3 2 ∅ eq_refl) as (stored1 & x & E).
  exists stored1, (mkLCG 1 16 5 3 2 x true).
  split; [exact E | ].
  apply (init_reuses_stored_inverse 1 9 16 5 3 7 2 0 ∅ stored1 _ E).
Defined.

(** X5.  For a power-of-two modulus and an odd multiplier, the constructor
    returns a generator whose [a_inverse] is a true inverse of a modulo m
    (the stored inverses being those [get_a_inverse_value] wrote). *)
Theorem init_inverse (seed m a c d : Z) (stored : gmap (Z * Z) Z) :
  power_of_two m -> Z.odd a = true -> stored_ok stored ->
  exists stored' self,
    __init__ seed m a c d stored = (stored', Ok self) /\
    invertible self /\ stored_ok stored'.
Proof.
  intros Hm Ha Hok.
  assert (Hp : is_power_of_two m = true)
    by (apply is_power_of_two_spec; now right).
  destruct (init_total seed m a c d stored Hp) as (stored' & x & E).
  destruct (init_ok _ _ _ _ _ _ _ _ Hok E) as (Hok' & x' & Hx & Hself).
  injection Hself as <-.
  exists stored', (mkLCG seed m a c d x true).
  split; [exact E | ]. split; [ | exact Hok'].
  destruct Hm as (k & Hk & ->).
  assert (Hpos : 0 < 2 ^ k) by (apply Z.pow_pos_nonneg; lia).
  destruct (xgcd_x_inverse a (2 ^ k) Hpos (gcd_odd_pow2 a k Ha Hk))
    as (x1 & Hx1 & Hinv).
  unfold invertible. cbn [_a_inverse _a _m]. congruence.
Qed.

Lemma init_inverse_witness :
  power_of_two 16 /\ Z.odd 5 = true /\ stored_ok ∅ /\
  exists stored' self,
    __init__ 1 16 5 3 2 ∅ = (stored', Ok self) /\
    invertible self /\ stored_ok stored'.
Proof.
  assert (Hm : power_of_two 16) by (exists 4; split; [lia | reflexivity]).
  split; [exact Hm | ]. split; [reflexivity | ].
  split; [apply stored_ok_empty | ].
  apply (init_inverse 1 16 5 3 2 ∅ Hm eq_refl stored_ok_empty).
Defined.

(** ** Further properties: stepping back and forth *)

Lemma lcg_backward_forward (m a c a_inverse x : Z) :
  m <> 0 ->
  (a_inverse * a) mod m = 1 mod m ->
  (a * ((a_inverse * (x - c)) mod m) + c) mod m = x mod m.
Proof.
  intros Hm Hinv.
  rewrite <- Z.add_mod_idemp_l, Z.mul_mod_idemp_r by exact Hm.
  replace (a * (a_inverse * (x - c))) with (a_inverse * a * (x - c)) by ring.
  rewrite <- Z.mul_mod_idemp_l, Hinv, Z.mul_mod_idemp_l by exact Hm.
  rewrite Z.add_mod_idemp_l by exact Hm.
  f_equal. ring.
Qed.

Lemma step_undo (b : bool) (self : ReversibleLCG) (x : Z) :
  power_of_two (_m self) -> invertible self -> 0 <= x < _m self ->
  step (negb b) self (step b self x) = x.
Proof.
  intros (k & Hk & Hm) Hinv Hx. unfold invertible in Hinv.
  assert (Hpos : 0 < 2 ^ k) by (apply Z.pow_pos_nonneg; lia).
  rewrite <- (Z.mod_small x (_m self)) at 2 by exact Hx.
  destruct b; cbn [negb step]; rewrite Hm in *; rewrite !land_mask by exact Hk.
  - apply lcg_forward_backward; [lia | exact Hinv].
  - apply lcg_backward_forward; [lia | exact Hinv].
Qed.

Lemma iter_step_range (b : bool) (self : ReversibleLCG) (n : nat) (x : Z) :
  power_of_two (_m self) -> 0 <= x < _m self ->
  0 <= Nat.iter n (step b self) x < _m self.
Proof.
  intros Hm Hx. destruct n as [ | n]; [exact Hx | ].
  cbn [Nat.iter nat_rect]. now apply step_range.
Qed.

Lemma orbit_snoc (f : Z -> Z) (n : nat) :
  forall x, orbit f (S n) x = orbit f n x ++ Nat.iter (S n) f x :: nil.
Proof.
  induction n as [ | n IH]; intros x; [reflexivity | ].
  change (orbit f (S (S n)) x) with (f x :: orbit f (S n) (f x)).
  rewrite IH, <- !Nat.iter_succ_r. reflexivity.
Qed.

Lemma orbit_back (b : bool) (self : ReversibleLCG) (n : nat) (x : Z) :
  power_of_two (_m self) -> invertible self -> 0 <= x < _m self ->
  orbit (step (negb b) self) n (Nat.iter n (step b self) x)
  = rev (removelast (x :: orbit (step b self) n x)) /\
  Nat.iter n (step (negb b) self) (Nat.iter n (step b self) x) = x.
Proof.
  intros Hm Hinv Hx. induction n as [ | n [IHo IHi]]; [split; reflexivity | ].
  assert (Hu : step (negb b) self (Nat.iter (S n) (step b self) x)
               = Nat.iter n (step b self) x).
  { cbn [Nat.iter nat_rect]. apply step_undo; try assumption.
    now apply iter_step_range. }
  split.
  - change (orbit (step (negb b) self) (S n)
                  (Nat.iter (S n) (step b self) x))
      with (step (negb b) self (Nat.iter (S n) (step b self) x)
            :: orbit (step (negb b) self) n
                 (step (negb b) self (Nat.iter (S n) (step b self) x))).
    rewrite Hu, IHo.
    rewrite (orbit_snoc (step b self) n x), app_comm_cons, removelast_last.
    destruct n as [ | n]; [reflexivity | ].
    rewrite (orbit_snoc (step b self) n x), app_comm_cons, removelast_last.
    rewrite rev_app_distr. reflexivity.
  - rewrite Nat.iter_succ_r, Hu. exact IHi.
Qed.

Lemma map_removelast {A B : Type} (f : A -> B) (l : list A) :
  List.map f (removelast l) = removelast (List.map f l).
Proof.
  induction l as [ | a [ | a' l] IH]; try reflexivity.
  change (removelast (a :: a' :: l)) with (a :: removelast (a' :: l)).
  cbn [List.map] in *. rewrite IH. reflexivity.
Qed.

Lemma calls_iter_next (n : nat) :
  forall self : ReversibleLCG,
    calls n __next__ self
    = calls n (if forward self then next else prev) self.
Proof.
  induction n as [ | n IH]; intros self; [reflexivity | ].
  cbn [calls]. unfold bind. rewrite iter_next_eq.
  destruct (forward self) eqn:Ef; [rewrite next_eq | rewrite prev_eq];
    (destruct (_d self <? 0); [reflexivity | ]);
    rewrite IH; cbn [forward set_x]; rewrite Ef; reflexivity.
Qed.

(** X6.  On a generator with a power-of-two modulus, a true inverse, a
    non-negative d and x in [0, m), [next] followed by [prev] gives the
    object back as it was, and so does [prev] followed by [next]. *)
Theorem next_prev_inverse (self : ReversibleLCG) :
  power_of_two (_m self) -> 0 <= _d self -> invertible self ->
  in_range self ->
  fst ((next ;;; prev) self) = self /\ fst ((prev ;;; next) self) = self.
Proof.
  intros Hm Hd Hinv Hx.
  pose proof (step_undo true self (_x self) Hm Hinv Hx) as Hf.
  pose proof (step_undo false self (_x self) Hm Hinv Hx) as Hb.
  cbn [negb] in Hf, Hb. split; unfold bind.
  - rewrite next_step by exact Hd.
    rewrite (prev_step (set_x (step true self (_x self)) self) Hd).
    cbn [fst set_x _x].
    change (step false (set_x (step true self (_x self)) self))
      with (step false self).
    rewrite Hf. destruct self; reflexivity.
  - rewrite prev_step by exact Hd.
    rewrite (next_step (set_x (step false self (_x self)) self) Hd).
    cbn [fst set_x _x].
    change (step true (set_x (step false self (_x self)) self))
      with (step true self).
    rewrite Hb. destruct self; reflexivity.
Qed.

Lemma next_prev_inverse_witness :
  let self := mkLCG 42 default_m default_a default_c default_d
                    (-4568919932995229531) false in
  power_of_two (_m self) /\ 0 <= _d self /\ invertible self /\
  in_range self /\
  fst ((next ;;; prev) self) = self /\ fst ((prev ;;; next) self) = self.
Proof.
  intros self.
  assert (Hm : power_of_two (_m self)) by apply default_m_power_of_two.
  assert (Hd : 0 <= _d self) by (cbn; unfold default_d; lia).
  assert (Hi : invertible self) by (vm_compute; reflexivity).
  assert (Hx : in_range self) by (split; [cbn; lia | reflexivity]).
  split; [exact Hm | ]. split; [exact Hd | ]. split; [exact Hi | ].
  split; [exact Hx | ].
  apply (next_prev_inverse self Hm Hd Hi Hx).
Defined.

(** X7.  Iterating n times with [__next__], calling [reverse], and
    iterating n times again walks the same states backwards: the second
    run returns the original x >> d preceded by the first run's outputs
    without the last one, in reverse order, then the generator holds its
    original x and the opposite direction. *)
Theorem iterate_reverse_iterate (self : ReversibleLCG) (n : nat) :
  power_of_two (_m self) -> 0 <= _d self -> invertible self ->
  in_range self ->
  exists outs self1,
    calls n __next__ self = (self1, Ok outs) /\
    length outs = n /\
    (reverse ;;; calls n __next__) self1
    = (set_forward (negb (forward self)) self,
       Ok (rev (removelast (Z.shiftr (_x self) (_d self) :: outs)))).
Proof.
  intros Hm Hd Hinv Hx.
  destruct (orbit_back (forward self) self n (_x self) Hm Hinv Hx)
    as [Ho Hi].
  eexists _, _. split.
  { rewrite calls_iter_next. apply calls_orbit. exact Hd. }
  split; [rewrite length_map; apply orbit_length | ].
  unfold bind at 1. cbn [reverse modify].
  rewrite calls_iter_next. cbn [forward set_forward set_x].
  rewrite calls_orbit by exact Hd.
  cbn [_x _d set_forward set_x].
  match goal with
  | |- context [step (negb (forward self)) ?s] =>
      change (step (negb (forward self)) s)
        with (step (negb (forward self)) self)
  end.
  rewrite Ho, Hi, map_rev, map_removelast. reflexivity.
Qed.

Lemma iterate_reverse_iterate_witness :
  let self := mkLCG 42 default_m default_a default_c default_d
                    (-4568919932995229531) true in
  power_of_two (_m self) /\ 0 <= _d self /\ invertible self /\
  in_range self /\
  exists outs self1,
    calls 5 __next__ self = (self1, Ok outs) /\
    length outs = 5%nat /\
    (reverse ;;; calls 5 __next__) self1
    = (set_forward (negb (forward self)) self,
       Ok (rev (removelast (Z.shiftr (_x self) (_d self) :: outs)))).
Proof.
  intros self.
  assert (Hm : power_of_two (_m self)) by apply default_m_power_of_two.
  assert (Hd : 0 <= _d self) by (cbn; unfold default_d; lia).
  assert (Hi : invertible self) by (vm_compute; reflexivity).
  assert (Hx : in_range self) by (split; [cbn; lia | reflexivity]).
  split; [exact Hm | ]. split; [exact Hd | ]. split; [exact Hi | ].
  split; [exact Hx | ].
  apply (iterate_reverse_iterate self 5 Hm Hd Hi Hx).
Defined.

(** ** Further properties: outputs, parameters and direction *)

Lemma shiftr_le_max (x m d : Z) :
  0 <= x < m -> 0 <= d -> 0 <= Z.shiftr x d <= Z.shiftr (m - 1) d.
Proof.
  intros Hx Hd. rewrite !Z.shiftr_div_pow2 by exact Hd.
  assert (Hp : 0 < 2 ^ d) by (apply Z.pow_pos_nonneg; lia).
  split; [apply Z.div_pos; lia | apply Z.div_le_mono; lia].
Qed.

Lemma masked_output (v m d : Z) :
  power_of_two m -> 0 <= d ->
  0 <= Z.shiftr (Z.land v (m - 1)) d <= Z.shiftr (m - 1) d.
Proof.
  intros Hm Hd. apply shiftr_le_max; [now apply land_mask_range | exact Hd].
Qed.

Lemma step_output_le_max (b : bool) (self : ReversibleLCG) (x : Z) :
  power_of_two (_m self) -> 0 <= _d self ->
  0 <= Z.shiftr (step b self x) (_d self)
    <= Z.shiftr (_m self - 1) (_d self).
Proof.
  intros Hm Hd. apply shiftr_le_max; [now apply step_range | exact Hd].
Qed.


Lemma to_uint64_Ok (v w : Z) :
  to_uint64 v = Ok w -> w = v /\ 0 <= v < 2 ^ 64.
Proof.
  unfold to_uint64.
  destruct (Z.leb_spec 0 v); [ | discriminate].
  destruct (Z.ltb_spec v (2 ^ 64)); [ | discriminate].
  intros E. injection E as <-. lia.
Qed.

Lemma to_uint64_in_range (v : Z) : 0 <= v < 2 ^ 64 -> to_uint64 v = Ok v.
Proof.
  intros Hv. unfold to_uint64.
  destruct (Z.leb_spec 0 v); [ | lia].
  destruct (Z.ltb_spec v (2 ^ 64)); [reflexivity | lia].
Qed.

Lemma np_fromiter_elem (gen : generator) (size : Z) (vs : list Z) (v : Z) :
  np_fromiter gen size = Ok vs -> v ∈ vs -> exists y, v = gen_body gen y.
Proof.
  unfold np_fromiter. destruct (size =? -1); [discriminate | ].
  destruct (size <? 0); [ | apply fromiter_loop_elem].
  intros H Hin. injection H as <-. inversion Hin.
Qed.


(** X8.  With a power-of-two modulus and a non-negative d, the [max]
    property is (m - 1) >> d, and [next], [prev] and [__next__] each
    return a value between 0 and [max]. *)
Theorem scalar_outputs_within_max (self : ReversibleLCG) :
  power_of_two (_m self) -> 0 <= _d self ->
  max self = (self, Ok (Z.shiftr (_m self - 1) (_d self))) /\
  (exists v, snd (next self) = Ok v /\
             0 <= v <= Z.shiftr (_m self - 1) (_d self)) /\
  (exists v, snd (prev self) = Ok v /\
             0 <= v <= Z.shiftr (_m self - 1) (_d self)) /\
  (exists v, snd (__next__ self) = Ok v /\
             0 <= v <= Z.shiftr (_m self - 1) (_d self)).
Proof.
  intros Hm Hd.
  assert (Hn : exists v, snd (next self) = Ok v /\
                 0 <= v <= Z.shiftr (_m self - 1) (_d self)).
  { rewrite next_step by exact Hd. eexists. split; [reflexivity | ].
    now apply step_output_le_max. }
  assert (Hp : exists v, snd (prev self) = Ok v /\
                 0 <= v <= Z.shiftr (_m self - 1) (_d self)).
  { rewrite prev_step by exact Hd. eexists. split; [reflexivity | ].
    now apply step_output_le_max. }
  split.
  - unfold max, bind, get, py_rshift, ret.
    destruct (Z.ltb_spec (_d self) 0); [lia | reflexivity].
  - split; [exact Hn | ]. split; [exact Hp | ].
    rewrite iter_next_eq. destruct (forward self); assumption.
Qed.

Lemma scalar_outputs_within_max_witness :
  let self := mkLCG (-7) default_m default_a default_c default_d
                    (-4568919932995229531) true in
  power_of_two (_m self) /\ 0 <= _d self /\
  max self = (self, Ok 2147483647) /\
  (exists v, snd (next self) = Ok v /\ 0 <= v <= 2147483647).
Proof.
  intros self.
  assert (Hm : power_of_two (_m self)) by apply default_m_power_of_two.
  assert (Hd : 0 <= _d self) by (cbn; unfold default_d; lia).
  split; [exact Hm | ]. split; [exact Hd | ].
  destruct (scalar_outputs_within_max self Hm Hd) as (Hmax & Hn & _).
  split; [exact Hmax | exact Hn].
Defined.

(** X9.  Every integer that [random] returns, the single one or each
    element of the array, lies between 0 and (m - 1) >> d when the
    modulus is a power of two. *)
Theorem random_outputs_within_max (size : option Z) (update : bool)
        (increment : option Z) (self self' : ReversibleLCG) (v : value) :
  power_of_two (_m self) ->
  GeneratorLCGReversible.random size update increment self = (self', Ok v) ->
  Forall (fun o => 0 <= o <= Z.shiftr (_m self - 1) (_d self)) (outputs v).
Proof.
  intros Hm. unfold_random. unfold np_rshift.
  repeat case_match; simplify_eq/=; intros; simplify_eq/=;
    repeat match goal with
           | H : (_ <? 0) = false |- _ => apply Z.ltb_ge in H
           | H : to_uint64 _ = Ok _ |- _ =>
               apply to_uint64_Ok in H as [-> [? _]]
           end;
    apply Forall_forall; intros o Ho.
  all: try (apply list_elem_of_fmap in Ho as (w & -> & Hw);
            match goal with
            | H : np_fromiter _ _ = Ok _ |- _ =>
                destruct (np_fromiter_elem _ _ _ _ H Hw) as [y ->]
            end).
  all: try (apply list_elem_of_singleton in Ho as ->).
  all: unfold _next_state, _prev_state,
         GeneratorLCGReversible._next_state_generator,
         GeneratorLCGReversible._prev_state_generator;
       cbn [gen_body _m _d _a _c _x _a_inverse set_x set_forward];
       apply masked_output; assumption.
Qed.

Lemma random_outputs_within_max_witness :
  let self := mkLCG 42 default_m default_a default_c default_d
                    (-4568919932995229531) true in
  power_of_two (_m self) /\
  GeneratorLCGReversible.random None false None self
  = (self, Ok (Scalar 293047021)) /\
  Forall (fun o => 0 <= o <= Z.shiftr (_m self - 1) (_d self))
         (outputs (Scalar 293047021)).
Proof.
  intros self.
  assert (Hm : power_of_two (_m self)) by apply default_m_power_of_two.
  assert (E : GeneratorLCGReversible.random None false None self
              = (self, Ok (Scalar 293047021)))
    by (vm_compute; reflexivity).
  split; [exact Hm | ]. split; [exact E | ].
  apply (random_outputs_within_max None false None self self _ Hm E).
Defined.

Lemma same_params_refl (self : ReversibleLCG) : same_params self self.
Proof. repeat split. Qed.

Lemma same_params_trans (s1 s2 s3 : ReversibleLCG) :
  same_params s1 s2 -> same_params s2 s3 -> same_params s1 s3.
Proof.
  unfold same_params. intros (? & ? & ? & ? & ?) (? & ? & ? & ? & ?).
  repeat split; congruence.
Qed.

Lemma do_call_params (c : call) (self : ReversibleLCG) :
  same_params self (do_call c self).
Proof.
  destruct c as [ | | | | size update increment]; cbn [do_call].
  - rewrite next_eq. repeat split.
  - rewrite prev_eq. repeat split.
  - repeat split.
  - rewrite iter_next_eq.
    destruct (forward self); [rewrite next_eq | rewrite prev_eq]; repeat split.
  - unfold_random. unfold np_rshift.
    repeat case_match; simplify_eq/=; repeat split.
Qed.

(** X10.  No series of calls changes a generator's parameters: m, a, c,
    d and a_inverse are after it what the constructor set, whether the
    calls return or raise. *)
Theorem run_keeps_params (cs : list call) (self : ReversibleLCG) :
  same_params self (run cs self).
Proof.
  revert self. induction cs as [ | c cs IH]; intros self.
  - apply same_params_refl.
  - cbn [run fold_left].
    apply (same_params_trans _ (do_call c self)); [apply do_call_params | ].
    apply IH.
Qed.

(** X11.  The direction flag changes in two ways only: [reverse] flips it,
    and a [random] call with [update=True] and an increment of 1 or -1
    sets it to that direction (even when the call then raises).  [next],
    [prev], [__next__] and every other [random] call leave it alone. *)
Theorem direction_after_call (c : call) (self : ReversibleLCG) :
  forward (do_call c self)
  = match c with
    | CallReverse => negb (forward self)
    | CallRandom _ true (Some i) =>
        if (i =? -1) || (i =? 1) then i =? 1 else forward self
    | _ => forward self
    end.
Proof.
  destruct c as [ | | | | size update increment]; cbn [do_call].
  - rewrite next_eq. reflexivity.
  - rewrite prev_eq. reflexivity.
  - reflexivity.
  - rewrite iter_next_eq.
    destruct (forward self) eqn:E; [rewrite next_eq | rewrite prev_eq];
      cbn; exact E.
  - unfold_random. unfold np_rshift.
    repeat case_match; simplify_eq/=; try reflexivity; try congruence.
Qed.

(** X12.  [random] with [size=0], a valid increment and d >= 0: without
    update it leaves the generator unchanged and returns the empty array
    when d < 2^64, or raises an overflow error when d >= 2^64; with update
    it raises an index error with x unchanged, but the direction is
    already set to the increment when one was given. *)
Theorem random_size_zero (increment : option Z) (self : ReversibleLCG) :
  0 <= _d self ->
  increment = None \/ increment = Some 1 \/ increment = Some (-1) ->
  GeneratorLCGReversible.random (Some 0) false increment self
  = (self,
     if _d self <? 2 ^ 64 then Ok (Array nil) else Raise OverflowError) /\
  GeneratorLCGReversible.random (Some 0) true increment self
  = (match increment with
     | Some i => set_forward (i =? 1) self
     | None => self
     end, Raise IndexError).
Proof.
  intros Hd Hinc.
  assert (Hd' : to_uint64 (_d self)
                = if _d self <? 2 ^ 64 then Ok (_d self)
                  else Raise OverflowError).
  { unfold to_uint64. destruct (Z.leb_spec 0 (_d self)); [ | lia].
    reflexivity. }
  unfold_random. unfold np_rshift, np_fromiter.
  destruct Hinc as [-> | [-> | ->]]; [destruct (forward self) | | ];
    cbn; rewrite ?Hd'; destruct (_d self <? 2 ^ 64); split; reflexivity.
Qed.

Lemma random_size_zero_witness :
  let self := mkLCG 42 default_m default_a default_c default_d
                    (-4568919932995229531) true in
  0 <= _d self /\
  GeneratorLCGReversible.random (Some 0) false (Some (-1)) self
  = (self, Ok (Array nil)) /\
  GeneratorLCGReversible.random (Some 0) true (Some (-1)) self
  = (set_forward false self, Raise IndexError).
Proof.
  intros self.
  assert (Hd : 0 <= _d self) by (cbn; unfold default_d; lia).
  split; [exact Hd | ].
  apply (random_size_zero (Some (-1)) self Hd). right. right. reflexivity.
Defined.

(** The overflow path of a peek with [size=0]: a shift count that does
    not fit [uint64]. *)
Example random_size_zero_wide_shift :
  let self := mkLCG 42 default_m default_a default_c (2 ^ 64)
                    (-4568919932995229531) true in
  GeneratorLCGReversible.random (Some 0) false None self
  = (self, Raise OverflowError).
Proof. intros self. vm_compute. reflexivity. Qed.



(** Where a peek does not predict the commit: a size of 0, or of -2 and
    below, gives an empty array on the peek and an index error on the
    commit. *)
Example random_peek_commit_differ :
  let self := mkLCG 42 default_m default_a default_c default_d
                    (-4568919932995229531) true in
  snd (GeneratorLCGReversible.random (Some (-2)) false None self)
  = Ok (Array nil) /\
  snd (GeneratorLCGReversible.random (Some (-2)) true None self)
  = Raise IndexError.
Proof. intros self. split; vm_compute; reflexivity. Qed.

(** ** Further properties: bulk generation *)

Lemma orbit_app (f : Z -> Z) (n1 n2 : nat) :
  forall x,
    orbit f (n1 + n2) x = orbit f n1 x ++ orbit f n2 (Nat.iter n1 f x).
Proof.
  induction n1 as [ | n1 IH]; intros x; [reflexivity | ].
  cbn [Nat.add orbit app]. rewrite IH, <- Nat.iter_succ_r. reflexivity.
Qed.

Lemma iter_add (f : Z -> Z) (n1 n2 : nat) (x : Z) :
  Nat.iter (n1 + n2) f x = Nat.iter n2 f (Nat.iter n1 f x).
Proof.
  rewrite (Nat.add_comm n1 n2). apply Nat.iter_add.
Qed.

(** X14.  With 0 <= d < 2^64, committing N values forward and then N
    values backward brings the generator back to its x: the backward
    array is the original x >> d preceded by the forward array without
    its last element, in reverse order (as in the docstring of
    [random]). *)
Theorem bulk_forward_then_backward (self : ReversibleLCG) (N : Z) :
  power_of_two (_m self) -> _m self <= 2 ^ 64 -> 0 <= _d self < 2 ^ 64 ->
  invertible self -> in_range self -> 1 <= N ->
  exists outs self1,
    GeneratorLCGReversible.random (Some N) true (Some 1) self
    = (self1, Ok (Array outs)) /\
    GeneratorLCGReversible.random (Some N) true (Some (-1)) self1
    = (set_forward false self,
       Ok (Array (rev (removelast (Z.shiftr (_x self) (_d self) :: outs))))).
Proof.
  intros Hm Hm64 Hd Hinv Hx HN.
  destruct (orbit_back true self (Z.to_nat N) (_x self) Hm Hinv Hx)
    as [Ho Hi].
  eexists _, _. split.
  { apply random_bulk; auto. }
  cbn [direction]. change (1 =? 1) with true.
  pose proof (random_bulk
                (set_x (Nat.iter (Z.to_nat N) (step true self) (_x self))
                       (set_forward true self))
                N true (Some (-1)) Hm Hm64 Hd HN
                (or_intror (or_intror eq_refl))) as E.
  cbn [direction] in E. change (-1 =? 1) with false in E.
  cbn [_x _d set_x set_forward] in E. 
  change (step false (set_x (Nat.iter (Z.to_nat N) (step true self) (_x self))
                            (set_forward true self)))
    with (step false self) in E.
  cbn [negb] in Ho, Hi. rewrite Ho, Hi in E.
  rewrite E, map_rev, map_removelast. reflexivity.
Qed.

Lemma bulk_forward_then_backward_witness :
  let self := mkLCG 42 default_m default_a default_c default_d
                    (-4568919932995229531) true in
  power_of_two (_m self) /\ _m self <= 2 ^ 64 /\ 0 <= _d self < 2 ^ 64 /\
  invertible self /\ in_range self /\ 1 <= 3 /\
  exists outs self1,
    GeneratorLCGReversible.random (Some 3) true (Some 1) self
    = (self1, Ok (Array outs)) /\
    GeneratorLCGReversible.random (Some 3) true (Some (-1)) self1
    = (set_forward false self,
       Ok (Array (rev (removelast (Z.shiftr (_x self) (_d self) :: outs))))).
Proof.
  intros self.
  assert (Hm : power_of_two (_m self)) by apply default_m_power_of_two.
  assert (Hm64 : _m self <= 2 ^ 64) by (vm_compute; discriminate).
  assert (Hd : 0 <= _d self < 2 ^ 64) by (cbn; unfold default_d; lia).
  assert (Hi : invertible self) by (vm_compute; reflexivity).
  assert (Hx : in_range self) by (split; [cbn; lia | reflexivity]).
  assert (HN : 1 <= 3) by lia.
  split; [exact Hm | ]. split; [exact Hm64 | ]. split; [exact Hd | ].
  split; [exact Hi | ]. split; [exact Hx | ]. split; [exact HN | ].
  apply (bulk_forward_then_backward self 3 Hm Hm64 Hd Hi Hx HN).
Defined.

(** X15.  With 0 <= d < 2^64, two committing bulk calls in a row, of N1
    and N2 values in the same direction, return together what one call of
    N1 + N2 values returns, and leave the generator in the same state. *)
Theorem bulk_calls_concatenate (self : ReversibleLCG) (N1 N2 : Z)
        (increment : option Z) :
  power_of_two (_m self) -> _m self <= 2 ^ 64 -> 0 <= _d self < 2 ^ 64 ->
  1 <= N1 -> 1 <= N2 ->
  increment = None \/ increment = Some 1 \/ increment = Some (-1) ->
  exists outs1 outs2 self1 self2,
    GeneratorLCGReversible.random (Some N1) true increment self
    = (self1, Ok (Array outs1)) /\
    GeneratorLCGReversible.random (Some N2) true increment self1
    = (self2, Ok (Array outs2)) /\
    GeneratorLCGReversible.random (Some (N1 + N2)) true increment self
    = (self2, Ok (Array (outs1 ++ outs2))).
Proof.
  intros Hm Hm64 Hd HN1 HN2 Hinc.
  eexists _, _, _, _. split; [apply random_bulk; auto | ].
  split.
  { apply random_bulk; auto; destruct increment; assumption. }
  rewrite random_bulk by (auto; lia).
  rewrite Z2Nat.inj_add by lia.
  destruct Hinc as [-> | [-> | ->]]; cbn [direction set_x set_forward forward
                                          _x _d];
    rewrite orbit_app, iter_add, map_app; reflexivity.
Qed.

Lemma bulk_calls_concatenate_witness :
  let self := mkLCG 42 default_m default_a default_c default_d
                    (-4568919932995229531) true in
  power_of_two (_m self) /\ _m self <= 2 ^ 64 /\ 0 <= _d self < 2 ^ 64 /\
  1 <= 2 /\ 1 <= 3 /\
  exists outs1 outs2 self1 self2,
    GeneratorLCGReversible.random (Some 2) true None self
    = (self1, Ok (Array outs1)) /\
    GeneratorLCGReversible.random (Some 3) true None self1
    = (self2, Ok (Array outs2)) /\
    GeneratorLCGReversible.random (Some (2 + 3)) true None self
    = (self2, Ok (Array (outs1 ++ outs2))).
Proof.
  intros self.
  assert (Hm : power_of_two (_m self)) by apply default_m_power_of_two.
  assert (Hm64 : _m self <= 2 ^ 64) by (vm_compute; discriminate).
  assert (Hd : 0 <= _d self < 2 ^ 64) by (cbn; unfold default_d; lia).
  assert (H2 : 1 <= 2) by lia.
  assert (H3 : 1 <= 3) by lia.
  split; [exact Hm | ]. split; [exact Hm64 | ]. split; [exact Hd | ].
  split; [exact H2 | ]. split; [exact H3 | ].
  apply (bulk_calls_concatenate self 2 3 None Hm Hm64 Hd H2 H3).
  left. reflexivity.
Defined.

(** X16.  [GeneratorLCGReversible(seed)] never fails: for every seed it
    returns a generator holding x = seed, the default parameters, the
    forward direction and a true inverse of the default multiplier. *)
Theorem generator_init_defaults (seed : Z) (stored : gmap (Z * Z) Z) :
  stored_ok stored ->
  exists stored' self,
    GeneratorLCGReversible.__init__ seed stored = (stored', Ok self) /\
    _x self = seed /\ forward self = true /\
    default_params self /\ invertible self /\
    power_of_two (_m self) /\ _m self <= 2 ^ 64 /\ 0 <= _d self.
Proof.
  intros Hok. unfold GeneratorLCGReversible.__init__.
  destruct (init_total seed default_m default_a default_c default_d stored
              eq_refl) as (stored' & x & E).
  destruct (init_ok _ _ _ _ _ _ _ _ Hok E) as (_ & x' & Hx & Hself).
  injection Hself as <-.
  rewrite default_a_inverse in Hx. injection Hx as <-.
  eexists _, _. split; [exact E | ].
  split; [reflexivity | ]. split; [reflexivity | ].
  split; [repeat split | ].
  split; [vm_compute; reflexivity | ].
  split; [apply default_m_power_of_two | ].
  split; [vm_compute; discriminate | cbn; unfold default_d; lia].
Qed.

Lemma generator_init_defaults_witness :
  stored_ok ∅ /\
  exists stored' self,
    GeneratorLCGReversible.__init__ (-3) ∅ = (stored', Ok self) /\
    _x self = -3 /\ forward self = true /\
    default_params self /\ invertible self /\
    power_of_two (_m self) /\ _m self <= 2 ^ 64 /\ 0 <= _d self.
Proof.
  split; [apply stored_ok_empty | ].
  apply (generator_init_defaults (-3) ∅ stored_ok_empty).
Defined.

(** ** Further properties: what the multiplier and the modulus allow *)

(** X17.  With a power-of-two modulus and a true inverse, the forward and
    the backward transition are one-to-one on [0, m): two generators
    with the same parameters and different in-range states have
    different next states and different previous states. *)
Theorem transitions_injective (self : ReversibleLCG) (x y : Z) :
  power_of_two (_m self) -> invertible self ->
  0 <= x < _m self -> 0 <= y < _m self ->
  (_next_state (set_x x self) = _next_state (set_x y self) -> x = y) /\
  (_prev_state (set_x x self) = _prev_state (set_x y self) -> x = y).
Proof.
  intros Hm Hinv Hx Hy. split; intros E.
  - rewrite <- (step_undo true self x Hm Hinv Hx).
    rewrite <- (step_undo true self y Hm Hinv Hy).
    f_equal. exact E.
  - rewrite <- (step_undo false self x Hm Hinv Hx).
    rewrite <- (step_undo false self y Hm Hinv Hy).
    f_equal. exact E.
Qed.

Lemma transitions_injective_witness :
  let self := mkLCG 0 16 5 3 0 13 true in
  power_of_two (_m self) /\ invertible self /\
  0 <= 4 < _m self /\ 0 <= 9 < _m self /\
  (_next_state (set_x 4 self) = _next_state (set_x 9 self) -> 4 = 9) /\
  (_prev_state (set_x 4 self) = _prev_state (set_x 9 self) -> 4 = 9).
Proof.
  intros self.
  assert (Hm : power_of_two (_m self))
    by (exists 4; split; [lia | reflexivity]).
  assert (Hi : invertible self) by reflexivity.
  assert (H4 : 0 <= 4 < _m self) by (cbn; lia).
  assert (H9 : 0 <= 9 < _m self) by (cbn; lia).
  split; [exact Hm | ]. split; [exact Hi | ].
  split; [exact H4 | ]. split; [exact H9 | ].
  apply (transitions_injective self 4 9 Hm Hi H4 H9).
Defined.

(** X18.  The constructor does not check the multiplier.  With an even a
    and a power-of-two modulus m >= 2 it returns a generator on which
    [next] loses information: the states x and x + m/2 are different,
    both in [0, m), and [next] takes both to the same state. *)
Theorem even_multiplier_collides (seed m a c d : Z)
        (stored : gmap (Z * Z) Z) :
  power_of_two m -> 2 <= m -> Z.even a = true -> 0 <= seed < m / 2 ->
  exists stored' self,
    __init__ seed m a c d stored = (stored', Ok self) /\
    in_range self /\
    in_range (set_x (seed + m / 2) self) /\
    fst (next (set_x (seed + m / 2) self)) = fst (next self).
Proof.
  intros Hm Hm2 Ha Hseed.
  assert (Hp : is_power_of_two m = true)
    by (apply is_power_of_two_spec; now right).
  destruct (init_total seed m a c d stored Hp) as (stored' & x & E).
  exists stored', (mkLCG seed m a c d x true).
  split; [exact E | ].
  destruct Hm as (k & Hk & ->).
  assert (Hk1 : 1 <= k).
  { destruct (Z.eq_dec k 0) as [-> | ]; [cbn in Hm2; lia | lia]. }
  assert (Hhalf : 2 ^ k = 2 * 2 ^ (k - 1)).
  { rewrite <- Z.pow_succ_r by lia. f_equal. lia. }
  assert (Hpos : 0 < 2 ^ (k - 1)) by (apply Z.pow_pos_nonneg; lia).
  assert (Hdiv : 2 ^ k / 2 = 2 ^ (k - 1)).
  { rewrite Hhalf, Z.mul_comm, Z.div_mul by lia. reflexivity. }
  rewrite Hdiv in *.
  split; [unfold in_range; cbn; lia | ].
  split; [unfold in_range; cbn; lia | ].
  rewrite !next_eq. cbn [fst]. unfold _next_state, set_x.
  cbn [_x _m _a _c _d _a_inverse forward].
  f_equal. rewrite !land_mask by exact Hk.
  apply Zeven_bool_iff, Zeven_ex_iff in Ha as [a' ->].
  replace (2 * a' * (seed + 2 ^ (k - 1)) + c)
    with (2 * a' * seed + c + a' * 2 ^ k) by (rewrite Hhalf; ring).
  apply Z_mod_plus_full.
Qed.

Lemma even_multiplier_collides_witness :
  power_of_two 16 /\ 2 <= 16 /\ Z.even 6 = true /\ 0 <= 3 < 16 / 2 /\
  exists stored' self,
    __init__ 3 16 6 1 0 ∅ = (stored', Ok self) /\
    in_range self /\
    in_range (set_x (3 + 16 / 2) self) /\
    fst (next (set_x (3 + 16 / 2) self)) = fst (next self).
Proof.
  assert (Hm : power_of_two 16) by (exists 4; split; [lia | reflexivity]).
  assert (H2 : 2 <= 16) by lia.
  assert (Hs : 0 <= 3 < 16 / 2) by (split; [lia | reflexivity]).
  split; [exact Hm | ]. split; [exact H2 | ]. split; [reflexivity | ].
  split; [exact Hs | ].
  apply (even_multiplier_collides 3 16 6 1 0 ∅ Hm H2 eq_refl Hs).
Defined.

(** X19.  The modulus 0 passes the constructor's check and gives a
    generator without any reduction: [a_inverse] is 1, [next] sets x to
    a*x + c, [prev] sets it to x - c, and [max] is -1. *)
Theorem zero_modulus_generator (seed a c d : Z) (stored : gmap (Z * Z) Z) :
  stored_ok stored -> 0 <= d ->
  exists stored',
    let self := mkLCG seed 0 a c d 1 true in
    __init__ seed 0 a c d stored = (stored', Ok self) /\
    _x (fst (next self)) = a * seed + c /\
    _x (fst (prev self)) = seed - c /\
    max self = (self, Ok (-1)).
Proof.
  intros Hok Hd.
  destruct (init_total seed 0 a c d stored eq_refl) as (stored' & x & E).
  destruct (init_ok _ _ _ _ _ _ _ _ Hok E) as (_ & x' & Hx & Hself).
  injection Hself as <-.
  assert (x = 1) as -> by (unfold xgcd_x in Hx; cbn in Hx; congruence).
  exists stored'. cbn zeta. split; [exact E | ].
  rewrite next_eq, prev_eq. unfold _next_state, _prev_state.
  cbn [fst set_x _x _m _a _c _a_inverse].
  change (0 - 1) with (-1). rewrite !Z.land_m1_r.
  split; [reflexivity | ]. split; [ring | ].
  unfold max, bind, get, py_rshift, ret. cbn [_m _d].
  destruct (Z.ltb_spec d 0); [lia | ].
  change (0 - 1) with (-1).
  rewrite Z.shiftr_div_pow2 by exact Hd.
  assert (Hp : 0 < 2 ^ d) by (apply Z.pow_pos_nonneg; lia).
  replace (-1 / 2 ^ d) with (-1); [reflexivity | ].
  apply Z.div_unique with (r := 2 ^ d - 1); lia.
Qed.

Lemma zero_modulus_generator_witness :
  stored_ok ∅ /\ 0 <= 32 /\
  exists stored',
    let self := mkLCG 42 0 default_a default_c 32 1 true in
    __init__ 42 0 default_a default_c 32 ∅ = (stored', Ok self) /\
    _x (fst (next self)) = default_a * 42 + default_c /\
    _x (fst (prev self)) = 42 - default_c /\
    max self = (self, Ok (-1)).
Proof.
  assert (Hd : 0 <= 32) by lia.
  split; [apply stored_ok_empty | ]. split; [exact Hd | ].
  apply (zero_modulus_generator 42 default_a default_c 32 ∅
           stored_ok_empty Hd).
Defined.
